(** * Tile and sprite compositing for the SSD1306 sketches

    A shallow embedding of the page renderer shared by the sketches
    ([DrawShiftedChar], [DrawSprites], [DrawPlayfield]) and of the
    scrolling variant that refreshes the playfield from a tile map.

    Conventions.
    - A C [byte] is a [Z] in [0, 256); every assignment that can leave that
      range is followed by [to_byte], the truncation the compiler performs.
      Expressions are evaluated in [int], as C promotes them.
    - [PROGMEM] tables live in flash, a separate address space: a table is a
      function from the offset to the stored value and [pgm_read_byte]
      reads one byte of it.
    - RAM arrays are lists; a pointer into an array is the index it points
      at.  The globals and the scan-line buffer form the record [machine].
    - A load outside a list yields 0 and a store outside it is dropped;
      what the program would do there is not modelled.  The trace records
      the index of every access, and the statements about bounds are
      statements about the trace.
    - [trace] is ghost state: the chronological list of the stores to the
      scan-line buffer, the loads from the playfield, the entries into the
      partial-character branch and the rows handed to the display. *)

From Stdlib Require Import ZArith List Lia Bool.
From stdpp Require Import base list.

Local Open Scope Z_scope.

(** ** Bytes and flash *)

Definition to_byte (z : Z) : Z := Z.land z 255.

Definition pgm_read_byte (tbl : Z -> Z) (a : Z) : Z := to_byte (tbl a).

(** A table given by its initialiser list. *)
Definition table (l : list Z) : Z -> Z :=
  fun a => if a <? 0 then 0 else nth (Z.to_nat a) l 0.

(** ** The machine *)

Record GFX_OBJECT := mkObject {
  x : Z;
  y : Z;
  bType : Z   (* high bit set = 16x16, else 8x8 *)
}.

Inductive event :=
| EvStore (i v : Z)                 (* bTemp[i] = v *)
| EvLoad (i : Z)                    (* bPlayfield[i] read *)
| EvPartial                         (* "partial character left to draw" entered *)
| EvSend (page : Z) (row : list Z). (* oledSetPosition(0, page); I2CWriteData(bTemp, 128) *)

Record machine := mkMachine {
  bTemp : list Z;                 (* byte bTemp[SCREEN_WIDTH] *)
  bPlayfield : list Z;            (* static byte bPlayfield[18 * 10] *)
  object_list : list GFX_OBJECT;  (* static GFX_OBJECT object_list[numberOfSprites] *)
  iScrollX : Z;
  iScrollY : Z;
  trace : list event
}.

Definition SCREEN_WIDTH : Z := 128.

Definition log (e : event) (m : machine) : machine :=
  mkMachine (bTemp m) (bPlayfield m) (object_list m) (iScrollX m) (iScrollY m)
            (trace m ++ [e]).

(** [d[0]] for a pointer [d] into [bTemp]. *)
Definition peek (m : machine) (d : Z) : Z := default 0 (bTemp m !! Z.to_nat d).

(** [*d = v] for a pointer [d] into [bTemp]. *)
Definition poke (d v : Z) (m : machine) : machine :=
  mkMachine (<[Z.to_nat d := v]> (bTemp m)) (bPlayfield m) (object_list m)
            (iScrollX m) (iScrollY m) (trace m ++ [EvStore d v]).

(** [bPlayfield[i]]. *)
Definition playfield_at (m : machine) (i : Z) : Z :=
  default 0 (bPlayfield m !! Z.to_nat i).

(** [memset(bTemp, 0, sizeof(bTemp))]. *)
Definition clear_row (m : machine) : machine :=
  mkMachine (replicate (Z.to_nat SCREEN_WIDTH) 0) (bPlayfield m) (object_list m)
            (iScrollX m) (iScrollY m) (trace m).

(** [oledSetPosition(0, page); I2CWriteData(bTemp, SCREEN_WIDTH)]. *)
Definition send_row (page : Z) (m : machine) : machine :=
  log (EvSend page (bTemp m)) m.

(** ** DrawShiftedChar *)

Section Renderer.

Variable ucFont : Z -> Z.        (* tile glyphs, 8 bytes each *)
Variable ucSprites : Z -> Z.     (* 8 bytes of mask, 8 bytes of pattern *)
Variable ucBigSprites : Z -> Z.  (* 32 bytes of mask, 32 bytes of pattern *)
Variable numberOfSprites : Z.

(** The byte [DrawShiftedChar] stores for the source bytes [c] and [c2]. *)
Definition shifted_byte (c c2 bYOff : Z) : Z :=
  let c := to_byte (Z.shiftr c bYOff) in
  let c2 := to_byte (Z.shiftl c2 (8 - bYOff)) in
  Z.lor c c2.

Fixpoint DrawShiftedChar_loop (n : nat) (s1 s2 d bYOff : Z) (m : machine) : machine :=
  match n with
  | O => m
  | S n' =>
      let c := pgm_read_byte ucFont s1 in
      let c2 := pgm_read_byte ucFont s2 in
      DrawShiftedChar_loop n' (s1 + 1) (s2 + 1) (d + 1) bYOff
                           (poke d (shifted_byte c c2 bYOff) m)
  end.

(** [for (z = 0; z < (8 - bXOff); z++)]: the bound is an [int]. *)
Definition DrawShiftedChar (s1 s2 d bXOff bYOff : Z) (m : machine) : machine :=
  DrawShiftedChar_loop (Z.to_nat (8 - bXOff)) s1 s2 d bYOff m.

(** [memcpy_P(d, s, n)] from the glyph table into [bTemp]. *)
Fixpoint memcpy_P_loop (n : nat) (d s : Z) (m : machine) : machine :=
  match n with
  | O => m
  | S n' => memcpy_P_loop n' (d + 1) (s + 1) (poke d (pgm_read_byte ucFont s) m)
  end.

Definition memcpy_P (d s n : Z) (m : machine) : machine :=
  memcpy_P_loop (Z.to_nat n) d s m.

(** ** DrawSprites *)

(** [cOld &= mask; cOld |= cNew;] *)
Definition composite (cOld mask cNew : Z) : Z := Z.lor (Z.land cOld mask) cNew.

(** The mask and pattern bytes each of the five inner loops computes from
    its source pointer [s], before they are combined with [d[0]]. *)

(** 16x16, [bYOff == 0]. *)
Definition cell_aligned16 (s : Z) : Z * Z :=
  let mask := pgm_read_byte ucBigSprites s in
  let cNew := pgm_read_byte ucBigSprites (s + 32) in
  (mask, cNew).

(** 16x16, only the bottom half of the sprite is on this page. *)
Definition cell_bottom16 (bYOff s : Z) : Z * Z :=
  let mask := pgm_read_byte ucBigSprites s in
  let cNew := pgm_read_byte ucBigSprites (s + 32) in
  let mask := to_byte (Z.shiftr mask (8 - bYOff)) in
  let mask := to_byte (Z.lor mask (Z.shiftl 255 bYOff)) in
  let cNew := to_byte (Z.shiftr cNew (8 - bYOff)) in
  (mask, cNew).

(** 16x16, only the top half of the sprite is on this page. *)
Definition cell_top16 (bYOff s : Z) : Z * Z :=
  let mask := pgm_read_byte ucBigSprites s in
  let cNew := pgm_read_byte ucBigSprites (s + 32) in
  let mask := to_byte (Z.shiftl mask bYOff) in
  let mask := to_byte (Z.lor mask (Z.shiftr 255 (8 - bYOff))) in
  let cNew := to_byte (Z.shiftl cNew bYOff) in
  (mask, cNew).

(** 16x16, part of the top and of the bottom half drawn together. *)
Definition cell_middle16 (bYOff s : Z) : Z * Z :=
  let mask := pgm_read_byte ucBigSprites s in
  let mask2 := pgm_read_byte ucBigSprites (s + 16) in
  let cNew := pgm_read_byte ucBigSprites (s + 32) in
  let cNew2 := pgm_read_byte ucBigSprites (s + 48) in
  let mask := to_byte (Z.shiftr mask (8 - bYOff)) in
  let cNew := to_byte (Z.shiftr cNew (8 - bYOff)) in
  let mask2 := to_byte (Z.shiftl mask2 bYOff) in
  let cNew2 := to_byte (Z.shiftl cNew2 bYOff) in
  let mask := to_byte (Z.lor mask mask2) in
  let cNew := to_byte (Z.lor cNew cNew2) in
  (mask, cNew).

(** 8x8: [oy] is [pObject->y], [y0] the page top. *)
Definition cell_small8 (oy y0 bYOff s : Z) : Z * Z :=
  let mask := pgm_read_byte ucSprites s in
  let cNew := pgm_read_byte ucSprites (s + 8) in
  if bYOff =? 0 then (mask, cNew)
  else if oy >? y0 then
    let mask := to_byte (Z.shiftl mask bYOff) in
    let mask := to_byte (Z.lor mask (Z.shiftr 255 (8 - bYOff))) in
    let cNew := to_byte (Z.shiftl cNew bYOff) in
    (mask, cNew)
  else
    let mask := to_byte (Z.shiftr mask (8 - bYOff)) in
    let mask := to_byte (Z.lor mask (Z.shiftl 255 bYOff)) in
    let cNew := to_byte (Z.shiftr cNew (8 - bYOff)) in
    (mask, cNew).

(** [for (x = 0; x < bWidth; x++) { ...; cOld = d[0]; cOld &= mask;
    cOld |= cNew; *d++ = cOld; }] with [s++] in the body. *)
Fixpoint blit (cell : Z -> Z * Z) (n : nat) (s d : Z) (m : machine) : machine :=
  match n with
  | O => m
  | S n' =>
      let '(mask, cNew) := cell s in
      let cOld := peek m d in
      blit cell n' (s + 1) (d + 1) (poke d (composite cOld mask cNew) m)
  end.

(** [bSize = (bSprite & 0x80) ? 16 : 8]. *)
Definition bSize_of (bSprite : Z) : Z :=
  if Z.land bSprite 128 =? 0 then 8 else 16.

(** [bWidth = w; if (128 - pObject->x < w) bWidth = 128 - pObject->x;] *)
Definition bWidth_of (w ox : Z) : Z :=
  if 128 - ox <? w then to_byte (128 - ox) else w.

(** The body of the sprite loop for [pObject], drawing on the page whose
    top pixel row is [y0]. *)
Definition draw_object (y0 : Z) (pObject : GFX_OBJECT) (m : machine) : machine :=
  let bSprite := bType pObject in
  let bSize := bSize_of bSprite in
  if y pObject >=? y0 + 8 then m            (* past bottom *)
  else if y pObject + bSize <=? y0 then m   (* above top *)
  else if x pObject >=? 128 then m          (* off right edge *)
  else
    let bSprite := Z.land bSprite 127 in
    let d := x pObject in
    if bSize =? 16 then
      let s := bSprite * 64 in
      let s := if y pObject + 8 <=? y0 then s + 16 else s in
      let bYOff := Z.land (y pObject) 7 in
      let bWidth := bWidth_of 16 (x pObject) in
      if bYOff =? 0 then blit cell_aligned16 (Z.to_nat bWidth) s d m
      else if y pObject + 8 <? y0 then blit (cell_bottom16 bYOff) (Z.to_nat bWidth) s d m
      else if y pObject >? y0 then blit (cell_top16 bYOff) (Z.to_nat bWidth) s d m
      else blit (cell_middle16 bYOff) (Z.to_nat bWidth) s d m
    else
      let s := bSprite * 16 in
      let bYOff := Z.land (y pObject) 7 in
      let bWidth := bWidth_of 8 (x pObject) in
      blit (cell_small8 (y pObject) y0 bYOff) (Z.to_nat bWidth) s d m.

(** [for (i = 0; i < bCount; i++) { pObject = &pList[i]; ... }] with
    [pBuf = bTemp] and [pList = object_list], as [DrawPlayfield] calls it.
    An index past the end of the list draws nothing. *)
Fixpoint DrawSprites_loop (y0 : Z) (n i : nat) (m : machine) : machine :=
  match n with
  | O => m
  | S n' =>
      let m' := match object_list m !! i with
                | Some pObject => draw_object y0 pObject m
                | None => m
                end in
      DrawSprites_loop y0 n' (S i) m'
  end.

Definition DrawSprites (y0 : Z) (bCount : Z) (m : machine) : machine :=
  DrawSprites_loop y0 (Z.to_nat bCount) 0 m.

(** ** DrawPlayfield *)

(** [if (tx >= 18) tx -= 18;] *)
Definition wrap_tx (tx : Z) : Z := if tx >=? 18 then tx - 18 else tx.

(** [if (ty >= 10) ty -= 10;] *)
Definition wrap_ty (ty : Z) : Z := if ty >=? 10 then ty - 10 else ty.

(** [iOffset2 = iOffset + 18; if (iOffset2 >= 180) iOffset2 -= 180;] *)
Definition next_line (iOffset : Z) : Z :=
  let iOffset2 := iOffset + 18 in
  if iOffset2 >=? 180 then iOffset2 - 180 else iOffset2.

(** The 16-cell loop of the [bYOff != 0] path.  It returns the loop-carried
    [tx], [d] and [bXOff] with the machine. *)
Fixpoint cells_shifted (n : nat) (ty bYOff tx d bXOff : Z) (m : machine)
  : Z * Z * Z * machine :=
  match n with
  | O => (tx, d, bXOff, m)
  | S n' =>
      let tx := wrap_tx tx in
      let iOffset := tx + ty * 18 in
      let iOffset2 := next_line iOffset in
      let m := log (EvLoad iOffset) m in
      let c := playfield_at m iOffset in
      let s := c * 8 + bXOff in
      let m := log (EvLoad iOffset2) m in
      let c := playfield_at m iOffset2 in
      let sNext := c * 8 + bXOff in
      let m := DrawShiftedChar s sNext d bXOff bYOff m in
      let d := d + (8 - bXOff) in
      let bXOff := 0 in
      let tx := to_byte (tx + 1) in
      cells_shifted n' ty bYOff tx d bXOff m
  end.

(** The 16-cell loop of the [bYOff == 0] path. *)
Fixpoint cells_copied (n : nat) (ty tx d bXOff : Z) (m : machine)
  : Z * Z * Z * machine :=
  match n with
  | O => (tx, d, bXOff, m)
  | S n' =>
      let tx := wrap_tx tx in
      let iOffset := tx + ty * 18 in
      let m := log (EvLoad iOffset) m in
      let c := playfield_at m iOffset in
      let s := c * 8 + bXOff in
      let m := memcpy_P d s (8 - bXOff) m in
      let d := d + (8 - bXOff) in
      let bXOff := 0 in
      let tx := to_byte (tx + 1) in
      cells_copied n' ty tx d bXOff m
  end.

(** The [if (bYOff) { ... }] branch of one page: the cell loop and the
    partial character after it.  It returns the new [bXOff]. *)
Definition row_shifted (ty bYOff tx bXOff : Z) (m : machine) : Z * machine :=
  let '(tx, d, bXOff, m) := cells_shifted 16 ty bYOff tx 0 bXOff m in
  if negb (d =? SCREEN_WIDTH) then
    let m := log EvPartial m in
    let bXOff := to_byte (SCREEN_WIDTH - d) in
    let tx := wrap_tx tx in
    let iOffset := tx + ty * 18 in
    let iOffset2 := next_line iOffset in
    let m := log (EvLoad iOffset) m in
    let c := playfield_at m iOffset in
    let s := c * 8 in
    let m := log (EvLoad iOffset2) m in
    let c := playfield_at m iOffset2 in
    let sNext := c * 8 in
    (bXOff, DrawShiftedChar s sNext d (to_byte (8 - bXOff)) bYOff m)
  else (bXOff, m).

(** The [else { ... }] branch of one page. *)
Definition row_copied (ty tx bXOff : Z) (m : machine) : Z * machine :=
  let '(tx, d, bXOff, m) := cells_copied 16 ty tx 0 bXOff m in
  if negb (d =? SCREEN_WIDTH) then
    let m := log EvPartial m in
    let bXOff := to_byte (SCREEN_WIDTH - d) in
    let tx := wrap_tx tx in
    let iOffset := tx + ty * 18 in
    let m := log (EvLoad iOffset) m in
    let c := playfield_at m iOffset in
    let s := c * 8 in
    (bXOff, memcpy_P d s bXOff m)
  else (bXOff, m).

(** The body of [for (y = 0; y < 8; y++)]; [ty] and [bXOff] are carried
    from page to page. *)
Definition draw_page (bScrollX bYOff pg ty bXOff : Z) (m : machine)
  : Z * Z * machine :=
  let m := clear_row m in
  let tx := Z.shiftr bScrollX 3 in
  let ty := wrap_ty ty in
  let '(bXOff, m) :=
    if negb (bYOff =? 0) then row_shifted ty bYOff tx bXOff m
    else row_copied ty tx bXOff m in
  let m := DrawSprites (to_byte (pg * 8)) (to_byte numberOfSprites) m in
  let m := send_row pg m in
  (to_byte (ty + 1), bXOff, m).

Fixpoint draw_pages (n : nat) (bScrollX bYOff pg ty bXOff : Z) (m : machine)
  : machine :=
  match n with
  | O => m
  | S n' =>
      let '(ty, bXOff, m) := draw_page bScrollX bYOff pg ty bXOff m in
      draw_pages n' bScrollX bYOff (pg + 1) ty bXOff m
  end.

Definition DrawPlayfield (bScrollX bScrollY : Z) (m : machine) : machine :=
  let bXOff := Z.land bScrollX 7 in
  let bYOff := Z.land bScrollY 7 in
  let ty := Z.shiftr bScrollY 3 in
  draw_pages 8 bScrollX bYOff 0 ty bXOff m.

(** [DrawPlayfield(iScrollX, iScrollY)] as [loop()] calls it: the [int]
    globals are converted to the [byte] parameters. *)
Definition draw_frame (m : machine) : machine :=
  DrawPlayfield (to_byte (iScrollX m)) (to_byte (iScrollY m)) m.

End Renderer.

(** ** The scrolling sketch

    The sketch that scrolls a 29-row tile map through the playfield has its
    own [DrawPlayfield]: it first calls [adjustPlayField], which copies two
    rows of [tileMap] into [bPlayfield], it reduces every playfield index
    modulo the playfield size, its partial-character blocks are commented
    out and it does not call [DrawSprites]. *)

Module Scroller.

Section Scroller.

Variable ucTiles : Z -> Z.
Variable tileMap : Z -> Z -> Z.   (* tileMap[TILEMAP_HEIGHT][TILEMAP_WIDTH] *)

Definition MODULE : Z := 8.
Definition EDGES : Z := 2.
Definition PLAYFIELD_ROWS : Z := 64 / MODULE + EDGES.
Definition PLAYFIELD_COLS : Z := 128 / MODULE + EDGES.
Definition TILEMAP_HEIGHT : Z := 29.

(** [bPlayfield[i] = v]. *)
Definition set_playfield (i v : Z) (m : machine) : machine :=
  mkMachine (bTemp m) (<[Z.to_nat i := v]> (bPlayfield m)) (object_list m)
            (iScrollX m) (iScrollY m) (trace m).

(** [for (x = 0; x < PLAYFIELD_COLS; x++) memcpy_P(d++, &tileMap[row][x], 1);] *)
Fixpoint reload_row (n : nat) (row d x0 : Z) (m : machine) : machine :=
  match n with
  | O => m
  | S n' =>
      reload_row n' row (d + 1) (x0 + 1)
                 (set_playfield d (pgm_read_byte (tileMap row) x0) m)
  end.

Fixpoint reload_rows (n : nat) (iStart y0 : Z) (m : machine) : machine :=
  match n with
  | O => m
  | S n' =>
      let bitStart :=
        to_byte (Z.rem ((iStart + y0) * PLAYFIELD_COLS)
                       (PLAYFIELD_COLS * PLAYFIELD_ROWS)) in
      let m := reload_row (Z.to_nat PLAYFIELD_COLS)
                          (Z.rem (iStart + y0) TILEMAP_HEIGHT) bitStart 0 m in
      reload_rows n' iStart (y0 + 1) m
  end.

Definition reloadPlayField (m : machine) : machine :=
  let iStart := to_byte (Z.shiftr (iScrollY m) 3) in
  reload_rows (Z.to_nat PLAYFIELD_ROWS) iStart 0 m.

Fixpoint adjust_loop (n : nat) (x1 d1 d2 cNextRow cPrevRow : Z) (m : machine)
  : machine :=
  match n with
  | O => m
  | S n' =>
      let m := set_playfield (d1 + x1) (pgm_read_byte (tileMap cNextRow) x1) m in
      let m := set_playfield (d2 + x1) (pgm_read_byte (tileMap cPrevRow) x1) m in
      adjust_loop n' (x1 + 1) d1 d2 cNextRow cPrevRow m
  end.

Definition adjustPlayField (m : machine) : machine :=
  let currentRow := to_byte (Z.shiftr (iScrollY m) 3 + EDGES / 2) in
  let playFieldLength := PLAYFIELD_ROWS * PLAYFIELD_COLS in
  let nextPlayfieldBit := (currentRow + 64 / MODULE) * PLAYFIELD_COLS in
  let cNextPlayfieldBit := Z.rem nextPlayfieldBit playFieldLength in
  let cNextRow := Z.rem (currentRow + 64 / MODULE) TILEMAP_HEIGHT in
  let prevPlayfieldBit := currentRow * PLAYFIELD_COLS in
  let cPrevPlayfieldBit := Z.rem prevPlayfieldBit playFieldLength in
  let cPrevRow := Z.rem currentRow TILEMAP_HEIGHT in
  adjust_loop (Z.to_nat PLAYFIELD_COLS) 0 cNextPlayfieldBit cPrevPlayfieldBit
              cNextRow cPrevRow m.

Definition wrap_cols (tx : Z) : Z :=
  if tx >=? PLAYFIELD_COLS then tx - PLAYFIELD_COLS else tx.

Definition wrap_rows (ty : Z) : Z :=
  if ty >=? PLAYFIELD_ROWS then ty - PLAYFIELD_ROWS else ty.

Fixpoint cells_shifted (n : nat) (ty bYOff tx d bXOff : Z) (m : machine)
  : Z * Z * Z * machine :=
  match n with
  | O => (tx, d, bXOff, m)
  | S n' =>
      let tx := wrap_cols tx in
      let iOffset := tx + ty * PLAYFIELD_COLS in
      let iOffset2 := iOffset + PLAYFIELD_COLS in
      let iOffset2 :=
        if iOffset2 >=? PLAYFIELD_ROWS * PLAYFIELD_COLS
        then iOffset2 - PLAYFIELD_ROWS * PLAYFIELD_COLS else iOffset2 in
      let cIndex := Z.rem iOffset (PLAYFIELD_ROWS * PLAYFIELD_COLS) in
      let m := log (EvLoad cIndex) m in
      let c := playfield_at m cIndex in
      let s := c * MODULE + bXOff in
      let cIndex2 := Z.rem iOffset2 (PLAYFIELD_ROWS * PLAYFIELD_COLS) in
      let m := log (EvLoad cIndex2) m in
      let c := playfield_at m cIndex2 in
      let sNext := c * MODULE + bXOff in
      let m := DrawShiftedChar ucTiles s sNext d (to_byte bXOff) (to_byte bYOff) m in
      let d := d + (MODULE - bXOff) in
      let bXOff := 0 in
      let tx := to_byte (tx + 1) in
      cells_shifted n' ty bYOff tx d bXOff m
  end.

Fixpoint cells_copied (n : nat) (ty tx d bXOff : Z) (m : machine)
  : Z * Z * Z * machine :=
  match n with
  | O => (tx, d, bXOff, m)
  | S n' =>
      let tx := wrap_cols tx in
      let iOffset := tx + ty * PLAYFIELD_COLS in
      let cIndex := Z.rem iOffset (PLAYFIELD_ROWS * PLAYFIELD_COLS) in
      let m := log (EvLoad cIndex) m in
      let c := playfield_at m cIndex in
      let s := c * MODULE + bXOff in
      let m := memcpy_P ucTiles d s (MODULE - bXOff) m in
      let d := d + (MODULE - bXOff) in
      let bXOff := 0 in
      let tx := to_byte (tx + 1) in
      cells_copied n' ty tx d bXOff m
  end.

Definition draw_page (bScrollX bYOff pg ty bXOff : Z) (m : machine)
  : Z * Z * machine :=
  let m := clear_row m in
  let ty := wrap_rows ty in
  let tx := to_byte (Z.shiftr bScrollX 3 + EDGES / 2) in
  let '(_, _, bXOff, m) :=
    if negb (bYOff =? 0) then cells_shifted 16 ty bYOff tx 0 bXOff m
    else cells_copied 16 ty tx 0 bXOff m in
  let m := send_row pg m in
  (ty + 1, bXOff, m).

Fixpoint draw_pages (n : nat) (bScrollX bYOff pg ty bXOff : Z) (m : machine)
  : machine :=
  match n with
  | O => m
  | S n' =>
      let '(ty, bXOff, m) := draw_page bScrollX bYOff pg ty bXOff m in
      draw_pages n' bScrollX bYOff (pg + 1) ty bXOff m
  end.

Definition DrawPlayfield (bScrollX bScrollY : Z) (m : machine) : machine :=
  let bXOff := Z.land bScrollX (MODULE - 1) in
  let bYOff := Z.land bScrollY (MODULE - 1) in
  let ty := Z.shiftr bScrollY 3 + EDGES / 2 in
  let m := adjustPlayField m in
  draw_pages 8 bScrollX bYOff 0 ty bXOff m.

Definition draw_frame (m : machine) : machine :=
  DrawPlayfield (to_byte (iScrollX m)) (to_byte (iScrollY m)) m.

End Scroller.

(** The tables of the sketch. *)

Definition ucTiles : Z -> Z := table [
    0; 0; 0; 0; 0; 0; 0; 0;
    170; 193; 232; 213; 232; 213; 190; 127;
    255; 255; 255; 255; 255; 255; 255; 255;
    255; 255; 255; 255; 255; 255; 255; 255;
    127; 33; 125; 61; 125; 63; 85; 0;
    0; 20; 20; 20; 20; 20; 20; 0;
    96; 48; 24; 12; 6; 3; 1; 0;
    1; 3; 6; 12; 24; 48; 96; 0;
    84; 0; 5; 0; 81; 168; 241; 24;
    17; 168; 81; 224; 1; 4; 1; 254;
    213; 128; 160; 128; 128; 128; 128; 138;
    181; 183; 129; 129; 128; 160; 128; 255;
    106; 129; 128; 181; 140; 129; 192; 255;
    170; 193; 232; 213; 232; 213; 190; 127;
    44; 94; 166; 224; 192; 12; 204; 238;
    174; 14; 224; 234; 238; 12; 224; 238;
    222; 24; 194; 158; 218; 116; 56; 0;
    170; 95; 170; 95; 170; 95; 170; 95;
    138; 0; 42; 0; 138; 0; 42; 0].

Definition tileMap : Z -> Z -> Z := fun row => table (nth (Z.to_nat row) [
    [0; 1; 0; 0; 0; 0; 0; 0; 0; 0; 0; 0; 0; 0; 0; 0; 1; 0];
    [0; 1; 1; 0; 0; 0; 0; 0; 0; 0; 0; 0; 0; 0; 0; 0; 1; 0];
    [0; 1; 1; 1; 0; 0; 0; 0; 0; 0; 0; 0; 0; 0; 0; 0; 1; 0];
    [0; 1; 1; 1; 1; 0; 0; 0; 0; 0; 0; 0; 0; 0; 0; 0; 1; 0];
    [0; 1; 1; 1; 1; 1; 0; 0; 0; 0; 0; 0; 0; 0; 0; 0; 1; 0];
    [0; 1; 1; 1; 1; 1; 1; 0; 0; 0; 0; 0; 0; 0; 0; 0; 1; 0];
    [0; 1; 1; 1; 1; 1; 1; 1; 0; 0; 0; 0; 0; 0; 0; 0; 1; 0];
    [0; 1; 1; 1; 1; 1; 1; 1; 1; 0; 0; 0; 0; 0; 0; 0; 1; 0];
    [0; 1; 1; 1; 1; 1; 1; 1; 1; 1; 0; 0; 0; 0; 0; 0; 1; 0];
    [0; 1; 1; 1; 1; 1; 1; 1; 1; 1; 1; 0; 0; 0; 0; 0; 1; 0];
    [0; 1; 1; 1; 1; 1; 1; 1; 1; 1; 1; 1; 0; 0; 0; 0; 1; 0];
    [0; 1; 1; 1; 1; 1; 1; 1; 1; 1; 1; 1; 1; 0; 0; 0; 1; 0];
    [0; 1; 1; 1; 1; 1; 1; 1; 1; 1; 1; 1; 1; 1; 0; 0; 1; 0];
    [0; 1; 1; 1; 1; 1; 1; 1; 1; 1; 1; 1; 1; 1; 1; 0; 1; 0];
    [0; 1; 1; 1; 1; 1; 1; 1; 1; 1; 1; 1; 1; 1; 1; 1; 1; 0];
    [0; 1; 1; 1; 1; 1; 1; 1; 1; 1; 1; 1; 1; 1; 1; 0; 1; 0];
    [0; 1; 1; 1; 1; 1; 1; 1; 1; 1; 1; 1; 1; 1; 0; 0; 1; 0];
    [0; 1; 1; 1; 1; 1; 1; 1; 1; 1; 1; 1; 1; 0; 0; 0; 1; 0];
    [0; 1; 1; 1; 1; 1; 1; 1; 1; 1; 1; 1; 0; 0; 0; 0; 1; 0];
    [0; 1; 1; 1; 1; 1; 1; 1; 1; 1; 1; 0; 0; 0; 0; 0; 1; 0];
    [0; 1; 1; 1; 1; 1; 1; 1; 1; 1; 0; 0; 0; 0; 0; 0; 1; 0];
    [0; 1; 1; 1; 1; 1; 1; 1; 1; 0; 0; 0; 0; 0; 0; 0; 1; 0];
    [0; 1; 1; 1; 1; 1; 1; 1; 0; 0; 0; 0; 0; 0; 0; 0; 1; 0];
    [0; 1; 1; 1; 1; 1; 1; 0; 0; 0; 0; 0; 0; 0; 0; 0; 1; 0];
    [0; 1; 1; 1; 1; 1; 0; 0; 0; 0; 0; 0; 0; 0; 0; 0; 1; 0];
    [0; 1; 1; 1; 1; 0; 0; 0; 0; 0; 0; 0; 0; 0; 0; 0; 1; 0];
    [0; 1; 1; 1; 0; 0; 0; 0; 0; 0; 0; 0; 0; 0; 0; 0; 1; 0];
    [0; 1; 1; 0; 0; 0; 0; 0; 0; 0; 0; 0; 0; 0; 0; 0; 1; 0];
    [0; 1; 0; 0; 0; 0; 0; 0; 0; 0; 0; 0; 0; 0; 0; 1; 1; 0]] []).

(** The machine [setup()] leaves: the scroll at the origin, the playfield
    loaded from the first rows of the map, one big sprite. *)
Definition setup : machine :=
  reloadPlayField tileMap
    (mkMachine (replicate 128 0) (replicate 180 0) [mkObject 14 40 128] 0 0 []).

(** [setup()], then eight steps of the rotary encoder: the interrupt
    handler has moved [iScrollY] one tile row down. *)
Definition scrolled_one_row : machine :=
  mkMachine (bTemp setup) (bPlayfield setup) (object_list setup)
            (iScrollX setup) 8 (trace setup).

End Scroller.

(** ** The sprite demo: tables and initial state *)

Module Demo.

Definition ucSprites : Z -> Z := table [
    124; 246; 102; 255; 127; 246; 102; 252;
    124; 246; 102; 255; 127; 246; 102; 252].

Definition ucBigSprites : Z -> Z := table [
    255; 255; 62; 28; 0; 0; 0; 0;
    0; 0; 0; 0; 0; 128; 252; 254;
    255; 255; 112; 32; 0; 0; 0; 0;
    0; 0; 0; 0; 0; 33; 225; 255;
    0; 0; 0; 128; 65; 139; 23; 123;
    109; 205; 205; 251; 43; 1; 0; 0;
    0; 0; 0; 7; 141; 201; 172; 173;
    32; 10; 232; 162; 136; 12; 0; 0].

(** The 759 bytes of the compiled table.  The initialiser has a 7-byte
    first row, and the row of the glyph [']'] is not part of it: the line
    before it ends in a backslash inside a [//] comment, which splices the
    row into that comment. *)
Definition ucFont : Z -> Z := table [
    0; 0; 0; 0; 0; 0; 0; 0; 0; 6; 95; 95; 6; 0; 0; 0;
    7; 7; 0; 7; 7; 0; 0; 20; 127; 127; 20; 127; 127; 20; 0; 36;
    46; 42; 107; 107; 58; 18; 0; 70; 102; 48; 24; 12; 102; 98; 0; 48;
    122; 79; 93; 55; 122; 72; 0; 0; 4; 7; 3; 0; 0; 0; 0; 0;
    28; 62; 99; 65; 0; 0; 0; 0; 65; 99; 62; 28; 0; 0; 0; 8;
    42; 62; 28; 28; 62; 42; 8; 0; 8; 8; 62; 62; 8; 8; 0; 0;
    0; 128; 224; 96; 0; 0; 0; 0; 8; 8; 8; 8; 8; 8; 0; 0;
    0; 0; 96; 96; 0; 0; 0; 96; 48; 24; 12; 6; 3; 1; 0; 62;
    127; 89; 77; 71; 127; 62; 0; 64; 66; 127; 127; 64; 64; 0; 0; 98;
    115; 89; 73; 111; 102; 0; 0; 34; 99; 73; 73; 127; 54; 0; 0; 24;
    28; 22; 83; 127; 127; 80; 0; 39; 103; 69; 69; 125; 57; 0; 0; 60;
    126; 75; 73; 121; 48; 0; 0; 3; 3; 113; 121; 15; 7; 0; 0; 54;
    127; 73; 73; 127; 54; 0; 0; 6; 79; 73; 105; 63; 30; 0; 0; 0;
    0; 0; 102; 102; 0; 0; 0; 0; 0; 128; 230; 102; 0; 0; 0; 8;
    28; 54; 99; 65; 0; 0; 0; 0; 20; 20; 20; 20; 20; 20; 0; 0;
    65; 99; 54; 28; 8; 0; 0; 0; 2; 3; 89; 93; 7; 2; 0; 62;
    127; 65; 93; 93; 95; 14; 0; 124; 126; 19; 19; 126; 124; 0; 0; 65;
    127; 127; 73; 73; 127; 54; 0; 28; 62; 99; 65; 65; 99; 34; 0; 65;
    127; 127; 65; 99; 62; 28; 0; 65; 127; 127; 73; 93; 65; 99; 0; 65;
    127; 127; 73; 29; 1; 3; 0; 28; 62; 99; 65; 81; 51; 114; 0; 127;
    127; 8; 8; 127; 127; 0; 0; 0; 65; 127; 127; 65; 0; 0; 0; 48;
    112; 64; 65; 127; 63; 1; 0; 65; 127; 127; 8; 28; 119; 99; 0; 65;
    127; 127; 65; 64; 96; 112; 0; 127; 127; 14; 28; 14; 127; 127; 0; 127;
    127; 6; 12; 24; 127; 127; 0; 28; 62; 99; 65; 99; 62; 28; 0; 65;
    127; 127; 73; 9; 15; 6; 0; 30; 63; 33; 49; 97; 127; 94; 0; 65;
    127; 127; 9; 25; 127; 102; 0; 38; 111; 77; 73; 89; 115; 50; 0; 3;
    65; 127; 127; 65; 3; 0; 0; 127; 127; 64; 64; 127; 127; 0; 0; 31;
    63; 96; 96; 63; 31; 0; 0; 63; 127; 96; 48; 96; 127; 63; 0; 99;
    119; 28; 8; 28; 119; 99; 0; 7; 79; 120; 120; 79; 7; 0; 0; 71;
    99; 113; 89; 77; 103; 115; 0; 0; 127; 127; 65; 65; 0; 0; 0; 1;
    3; 6; 12; 24; 48; 96; 0; 8; 12; 6; 3; 6; 12; 8; 0; 128;
    128; 128; 128; 128; 128; 128; 128; 0; 0; 3; 7; 4; 0; 0; 0; 32;
    116; 84; 84; 60; 120; 64; 0; 65; 127; 63; 72; 72; 120; 48; 0; 56;
    124; 68; 68; 108; 40; 0; 0; 48; 120; 72; 73; 63; 127; 64; 0; 56;
    124; 84; 84; 92; 24; 0; 0; 72; 126; 127; 73; 3; 6; 0; 0; 152;
    188; 164; 164; 248; 124; 4; 0; 65; 127; 127; 8; 4; 124; 120; 0; 0;
    68; 125; 125; 64; 0; 0; 0; 96; 224; 128; 132; 253; 125; 0; 0; 65;
    127; 127; 16; 56; 108; 68; 0; 0; 65; 127; 127; 64; 0; 0; 0; 124;
    124; 24; 120; 28; 124; 120; 0; 124; 120; 4; 4; 124; 120; 0; 0; 56;
    124; 68; 68; 124; 56; 0; 0; 132; 252; 248; 164; 36; 60; 24; 0; 24;
    60; 36; 164; 248; 252; 132; 0; 68; 124; 120; 76; 4; 12; 24; 0; 72;
    92; 84; 116; 100; 36; 0; 0; 4; 4; 62; 127; 68; 36; 0; 0; 60;
    124; 64; 64; 60; 124; 64; 0; 28; 60; 96; 96; 60; 28; 0; 0; 60;
    124; 96; 48; 96; 124; 60; 0; 68; 108; 56; 16; 56; 108; 68; 0; 156;
    188; 160; 160; 252; 124; 0; 0; 76; 100; 116; 92; 76; 100; 0; 0; 8;
    8; 62; 119; 65; 65; 0; 0; 0; 0; 0; 119; 119; 0; 0; 0; 65;
    65; 119; 62; 8; 8; 0; 0; 2; 3; 1; 3; 2; 3; 1; 0; 112;
    120; 76; 70; 76; 120; 112; 0].

Definition numberOfSprites : Z := 19.

(** [setup()]: every playfield row holds the characters from ['A' - 32] on;
    sixteen sprites on a grid, the last of them big; three more left zero. *)
Definition setup : machine :=
  mkMachine
    (replicate 128 0)
    (concat (replicate 10 (map (fun c => 33 + c) (seqZ 0 18))))
    (map (fun i => mkObject (Z.land i 3 * 24)
                            (if i =? 15 then 36 else Z.land i 12 * 3)
                            (if i =? 15 then 128 else 0))
         (seqZ 0 16)
     ++ replicate 3 (mkObject 0 0 0))
    0 0 [].

(** The body of [while (1)] in [loop()] after the call of [DrawPlayfield]:
    the scroll position advances and wraps, sprite 15 moves by [(dx, dy)]
    and bounces off the sides.  The state is the machine with [dx] and
    [dy]. *)
Definition advance (s : machine * Z * Z) : machine * Z * Z :=
  let '(m, dx, dy) := s in
  let sx := iScrollX m + 1 in
  let sy := iScrollY m + 1 in
  let sx := if sx >=? 144 then 0 else sx in
  let sy := if sy >=? 80 then 0 else sy in
  match object_list m !! 15%nat with
  | Some o =>
      let o' := mkObject (to_byte (x o + dx)) (to_byte (y o + dy)) (bType o) in
      let dx := if (x o' =? 0) || (x o' =? 111) then - dx else dx in
      let dy := if (y o' =? 0) || (y o' =? 47) then - dy else dy in
      (mkMachine (bTemp m) (bPlayfield m) (<[15%nat := o']> (object_list m))
                 sx sy (trace m), dx, dy)
  | None =>
      (mkMachine (bTemp m) (bPlayfield m) (object_list m) sx sy (trace m), dx, dy)
  end.

(** The globals at the [n + 1]-th call of [DrawPlayfield] in [loop()].  The
    calls themselves are left out: they change none of the globals. *)
Definition frame (n : nat) : machine :=
  fst (fst (Nat.iter n advance (setup, 1, 1))).

End Demo.

(** * Vocabulary of the statements *)

(** Every inner loop of the renderer stores a run of bytes at consecutive
    positions of [bTemp].  [stores d vs] is that run and [store_events d vs]
    what it appends to the trace. *)

Fixpoint stores (d : Z) (vs : list Z) (m : machine) : machine :=
  match vs with
  | [] => m
  | v :: vs' => stores (d + 1) vs' (poke d v m)
  end.

Fixpoint store_events (d : Z) (vs : list Z) : list event :=
  match vs with
  | [] => []
  | v :: vs' => EvStore d v :: store_events (d + 1) vs'
  end.

(** The bytes [f 0], [f 1], ..., [f (n - 1)]. *)
Definition run_of (f : Z -> Z) (n : nat) : list Z :=
  map (fun k : nat => f (Z.of_nat k)) (seq 0 n).

(** What no routine of the sprite demo touches. *)
Definition same_globals (m m' : machine) : Prop :=
  bPlayfield m' = bPlayfield m /\ object_list m' = object_list m /\
  iScrollX m' = iScrollX m /\ iScrollY m' = iScrollY m.

(** The four fills of the uniform-column test. *)
Definition fills : list Z := [0; 255; 85; 170].

(** A [GFX_OBJECT] whose fields are bytes. *)
Definition byte_fields (o : GFX_OBJECT) : Prop :=
  0 <= x o < 256 /\ 0 <= y o < 256 /\ 0 <= bType o < 256.

(** The three visibility conditions, for the page whose top row is [y0]. *)
Definition visible (y0 : Z) (o : GFX_OBJECT) : Prop :=
  y o < y0 + 8 /\
  y o + (if Z.testbit (bType o) 7 then 16 else 8) > y0 /\
  x o < 128.


Definition is_load (e : event) : option Z :=
  match e with
  | EvLoad i => Some i
  | _ => None
  end.

Section SpriteColumns.

Variables ucSprites ucBigSprites : Z -> Z.

(** The columns [draw_object] blits for [o]. *)
Definition sprite_width (o : GFX_OBJECT) : Z :=
  bWidth_of (bSize_of (bType o)) (x o).

(** The mask and pattern [draw_object] applies to column [k] of [o] on the
    page [y0], after the shifts of the alignment case at hand. *)
Definition sprite_cell (y0 : Z) (o : GFX_OBJECT) (k : Z) : Z * Z :=
  let bSprite := Z.land (bType o) 127 in
  let bYOff := Z.land (y o) 7 in
  if bSize_of (bType o) =? 16 then
    let s := (if y o + 8 <=? y0 then bSprite * 64 + 16 else bSprite * 64) + k in
    if bYOff =? 0 then cell_aligned16 ucBigSprites s
    else if y o + 8 <? y0 then cell_bottom16 ucBigSprites bYOff s
    else if y o >? y0 then cell_top16 ucBigSprites bYOff s
    else cell_middle16 ucBigSprites bYOff s
  else cell_small8 ucSprites (y o) y0 bYOff (bSprite * 16 + k).

(** Sprite [o] is drawn on page [y0] and has a column at [bTemp[c]]. *)
Definition covers (y0 : Z) (o : GFX_OBJECT) (c : Z) : Prop :=
  visible y0 o /\ x o <= c < x o + sprite_width o.

(** The sprite loop over a list of objects. *)
Definition draw_all (y0 : Z) (l : list GFX_OBJECT) (m : machine) : machine :=
  fold_left (fun m o => draw_object ucSprites ucBigSprites y0 o m) l m.

(** What a sprite with a column at [bTemp[c]] makes of the byte [b] there:
    [(b & mask) | pattern]; a sprite without one leaves [b]. *)
Definition paint_byte (y0 c : Z) (b : Z) (o : GFX_OBJECT) : Z :=
  let w := Z.min (if Z.testbit (bType o) 7 then 16 else 8) (128 - x o) in
  if (x o <=? c) && (c <? x o + w)
  then Z.lor (Z.land b (fst (sprite_cell y0 o (c - x o))))
             (snd (sprite_cell y0 o (c - x o)))
  else b.

End SpriteColumns.

(** The three visibility conditions as a test. *)
Definition shown (y0 : Z) (o : GFX_OBJECT) : bool :=
  (y o <? y0 + 8) && (y0 <? y o + (if Z.testbit (bType o) 7 then 16 else 8))
  && (x o <? 128).

(** [evs] is the run of stores of a drawn sprite [o]: one byte for each of
    its [min(spriteHeight, 128 - x)] columns, from [bTemp[x]] on. *)
Definition sprite_run (o : GFX_OBJECT) (evs : list event) : Prop :=
  exists vs, evs = store_events (x o) vs /\ vs <> [] /\
             Z.of_nat (length vs) =
               Z.min (if Z.testbit (bType o) 7 then 16 else 8) (128 - x o).

(** Two small sprites two columns apart, on a lit row. *)
Definition overlapping : machine :=
  mkMachine (replicate 128 255) [] [mkObject 10 0 0; mkObject 12 0 0] 0 0 [].

Definition is_partial (e : event) : bool :=
  match e with
  | EvPartial => true
  | _ => false
  end.

(** How often the partial-character branch has been entered. *)
Definition partial_entries (m : machine) : nat :=
  length (List.filter is_partial (trace m)).

(** The playfield indices read so far, oldest first. *)
Definition loads (m : machine) : list Z := omap is_load (trace m).

(** [m'] is [m] up to the scan-line buffer and to trace entries other than
    entries into the partial-character branch. *)
Definition quiet (m m' : machine) : Prop :=
  same_globals m m' /\ partial_entries m' = partial_entries m.

(** [m'] is [m] up to the trace. *)
Definition same_memory (m m' : machine) : Prop :=
  bTemp m' = bTemp m /\ same_globals m m'.

(** The tile row [DrawPlayfield] uses on page [p] when [ty] holds [ty0]
    before page 0: each page wraps [ty] once and increments it. *)
Fixpoint ty_before (ty0 : Z) (p : nat) : Z :=
  match p with
  | O => ty0
  | S p' => to_byte (wrap_ty (ty_before ty0 p') + 1)
  end.

Definition tile_row (ty0 : Z) (p : nat) : Z := wrap_ty (ty_before ty0 p).

(** The playfield indices one cell reads: its tile and, on the shift path,
    the tile one line below it. *)
Definition cell_reads (bYOff i : Z) : list Z :=
  if bYOff =? 0 then [i] else [i; next_line i].

(** The indices read for one page when its tile row is [row]: sixteen
    cells from column [bScrollX >> 3] on, wrapping at column 18, and a
    seventeenth when [bScrollX] is not a multiple of 8. *)
Definition page_reads (bScrollX bYOff row : Z) : list Z :=
  flat_map (cell_reads bYOff)
           (run_of (fun k => (Z.shiftr bScrollX 3 + k) mod 18 + row * 18)
                   (if Z.land bScrollX 7 =? 0 then 16 else 17)).

(** The indices read for the eight pages of a frame when page [p] uses tile
    row [((bScrollY >> 3) + p) mod 10]. *)
Definition frame_reads (bScrollX bScrollY : Z) : list Z :=
  flat_map (fun p : nat =>
              page_reads bScrollX (Z.land bScrollY 7)
                         ((Z.shiftr bScrollY 3 + Z.of_nat p) mod 10))
           (seq 0 8).

(** Playfield row [r] holds the eighteen tiles of tile-map row [t]. *)
Definition row_holds (tileMap : Z -> Z -> Z) (pf : list Z) (r t : Z) : Prop :=
  forall k, 0 <= k < 18 ->
    pf !! Z.to_nat (r * 18 + k) = Some (pgm_read_byte (tileMap t) k).

(** The nine playfield rows a frame can draw when the scroll stands in tile
    row [r] hold the tile-map rows they stand for. *)
Definition window (tileMap : Z -> Z -> Z) (pf : list Z) (r : Z) : Prop :=
  forall j, 1 <= j <= 9 -> row_holds tileMap pf ((r + j) mod 10) ((r + j) mod 29).

(** The rows sent to the display so far, each with its page. *)
Definition sent (m : machine) : list (Z * list Z) :=
  omap (fun e => match e with EvSend p r => Some (p, r) | _ => None end) (trace m).

(** What holds of the state of [loop()], with its [dx] and [dy], at every
    call of [DrawPlayfield]. *)
Definition loop_inv (s : machine * Z * Z) : Prop :=
  let '(m, dx, dy) := s in
  0 <= iScrollX m < 144 /\ 0 <= iScrollY m < 80 /\
  bPlayfield m = bPlayfield Demo.setup /\
  exists o, object_list m = <[15%nat := o]> (object_list Demo.setup) /\
            bType o = 128 /\
            0 <= x o <= 111 /\ 0 <= y o <= 47 /\
            (dx = 1 \/ dx = -1) /\ (x o = 0 -> dx = 1) /\ (x o = 111 -> dx = -1) /\
            (dy = 1 \/ dy = -1) /\ (y o = 0 -> dy = 1) /\ (y o = 47 -> dy = -1).

(** * Properties *)

(** ** Bytes *)

Lemma to_byte_range z : 0 <= to_byte z < 256.
Proof.
  unfold to_byte. change 255 with (Z.ones 8).
  rewrite Z.land_ones by lia. apply Z.mod_pos_bound. lia.
Qed.

Lemma to_byte_small z : 0 <= z < 256 -> to_byte z = z.
Proof.
  intros H. unfold to_byte. change 255 with (Z.ones 8).
  rewrite Z.land_ones by lia. apply Z.mod_small. exact H.
Qed.

Lemma pgm_read_byte_range tbl a : 0 <= pgm_read_byte tbl a < 256.
Proof. apply to_byte_range. Qed.

Lemma shiftr_byte c n : 0 <= c < 256 -> 0 <= n -> 0 <= Z.shiftr c n < 256.
Proof.
  intros Hc Hn. rewrite Z.shiftr_div_pow2 by lia.
  assert (0 < 2 ^ n) by (apply Z.pow_pos_nonneg; lia).
  split.
  - apply Z.div_pos; lia.
  - apply Z.div_lt_upper_bound; nia.
Qed.

(** ** Runs of stores *)

Lemma same_globals_refl m : same_globals m m.
Proof. repeat split. Qed.

Lemma same_globals_trans m1 m2 m3 :
  same_globals m1 m2 -> same_globals m2 m3 -> same_globals m1 m3.
Proof.
  unfold same_globals. intros (A & B & C & D) (A' & B' & C' & D').
  repeat split; congruence.
Qed.

Lemma stores_trace vs : forall d m,
  trace (stores d vs m) = trace m ++ store_events d vs.
Proof.
  induction vs as [|v vs IH]; intros d m; simpl.
  - now rewrite app_nil_r.
  - rewrite IH. simpl. now rewrite <- app_assoc.
Qed.

(** Inside the run the buffer holds the stored bytes... *)
Lemma stores_lookup_in vs : forall d m (k : nat) v,
  0 <= d -> vs !! k = Some v ->
  (Z.to_nat d + length vs <= length (bTemp m))%nat ->
  bTemp (stores d vs m) !! (Z.to_nat d + k)%nat = Some v.
Proof.
  induction vs as [|w vs IH]; intros d m k v Hd Hk Hlen; [discriminate|].
  simpl in Hlen. destruct k as [|k]; simpl in *.
  - injection Hk as ->. rewrite Nat.add_0_r.
    assert (Hout : forall vs' d' m', (Z.to_nat d < Z.to_nat d')%nat ->
              bTemp (stores d' vs' m') !! Z.to_nat d = bTemp m' !! Z.to_nat d).
    { clear. induction vs' as [|u vs' IH']; intros d' m' Hlt; simpl; [reflexivity|].
      rewrite IH' by lia. simpl. apply list_lookup_insert_ne. lia. }
    rewrite Hout by lia. simpl. apply list_lookup_insert_eq. lia.
  - replace (Z.to_nat d + S k)%nat with (Z.to_nat (d + 1) + k)%nat by lia.
    apply IH; [lia|exact Hk|]. simpl. rewrite length_insert. lia.
Qed.

(** ... and outside it is unchanged. *)
Lemma stores_lookup_out vs : forall d m (i : nat),
  0 <= d -> (i < Z.to_nat d \/ Z.to_nat d + length vs <= i)%nat ->
  bTemp (stores d vs m) !! i = bTemp m !! i.
Proof.
  induction vs as [|w vs IH]; intros d m i Hd Hi; simpl; [reflexivity|].
  simpl in Hi. rewrite IH by lia. simpl. apply list_lookup_insert_ne. lia.
Qed.

Lemma run_of_S f n : run_of f (S n) = f 0 :: run_of (fun k => f (k + 1)) n.
Proof.
  unfold run_of. simpl. f_equal. rewrite <- seq_shift, map_map.
  apply map_ext. intros k. f_equal. lia.
Qed.

Lemma run_of_ext f g n :
  (forall k, 0 <= k -> f k = g k) -> run_of f n = run_of g n.
Proof. intros H. unfold run_of. apply map_ext. intros k. apply H. lia. Qed.

Lemma run_of_length f n : length (run_of f n) = n.
Proof. unfold run_of. now rewrite length_map, length_seq. Qed.

Lemma run_of_lookup f n (k : nat) :
  (k < n)%nat -> run_of f n !! k = Some (f (Z.of_nat k)).
Proof.
  intros H. unfold run_of. rewrite list_lookup_fmap.
  rewrite lookup_seq_lt by exact H. reflexivity.
Qed.

Lemma run_of_const b n : run_of (fun _ => b) n = replicate n b.
Proof.
  induction n as [|n IH]; [reflexivity|]. rewrite run_of_S. simpl. now rewrite IH.
Qed.

(** ** The inner loops as runs of stores *)

Section Loops.

Variables ucFont ucSprites ucBigSprites : Z -> Z.

Lemma DrawShiftedChar_loop_stores n : forall s1 s2 d v m,
  DrawShiftedChar_loop ucFont n s1 s2 d v m =
  stores d (run_of (fun k => shifted_byte (pgm_read_byte ucFont (s1 + k))
                                          (pgm_read_byte ucFont (s2 + k)) v) n) m.
Proof.
  induction n as [|n IH]; intros s1 s2 d v m; [reflexivity|].
  rewrite run_of_S. simpl. rewrite IH, !Z.add_0_r. f_equal.
  apply run_of_ext. intros k _. now rewrite <- !Z.add_assoc, !(Z.add_comm 1 k).
Qed.

Lemma memcpy_P_loop_stores n : forall d s m,
  memcpy_P_loop ucFont n d s m =
  stores d (run_of (fun k => pgm_read_byte ucFont (s + k)) n) m.
Proof.
  induction n as [|n IH]; intros d s m; [reflexivity|].
  rewrite run_of_S. simpl. rewrite IH, Z.add_0_r. f_equal.
  apply run_of_ext. intros k _. now rewrite <- Z.add_assoc, (Z.add_comm 1 k).
Qed.

Lemma peek_poke_ne d v m d' :
  Z.to_nat d <> Z.to_nat d' -> peek (poke d v m) d' = peek m d'.
Proof.
  intros H. unfold peek, poke. simpl. now rewrite list_lookup_insert_ne.
Qed.

Lemma blit_stores cell n : forall s d m,
  0 <= d ->
  blit cell n s d m =
  stores d (run_of (fun k => composite (peek m (d + k)) (fst (cell (s + k)))
                                       (snd (cell (s + k)))) n) m.
Proof.
  induction n as [|n IH]; intros s d m Hd; [reflexivity|].
  rewrite run_of_S. simpl. rewrite !Z.add_0_r.
  destruct (cell s) as [mask cNew] eqn:E. simpl.
  rewrite IH by lia. f_equal.
  apply run_of_ext. intros k Hk.
  rewrite peek_poke_ne by lia.
  now rewrite <- !Z.add_assoc, !(Z.add_comm 1 k).
Qed.

End Loops.

(** ** DrawShiftedChar *)

Lemma shifted_byte_formula c c2 v :
  0 <= c < 256 -> 0 <= v ->
  shifted_byte c c2 v = Z.lor (Z.shiftr c v) (Z.land (Z.shiftl c2 (8 - v)) 255).
Proof.
  intros Hc Hv. unfold shifted_byte.
  rewrite (to_byte_small (Z.shiftr c v)) by (apply shiftr_byte; lia).
  reflexivity.
Qed.

(** C1.  For a vertical offset [v] in [1, 7], [DrawShiftedChar] stores
    exactly [8 - bXOff] bytes, at [d], [d + 1], ...; the [k]-th of them is
    [(top >> v) | (bottom << (8 - v))] cut to 8 bits, where [top] and
    [bottom] are the [k]-th bytes of the two sources; the rest of the
    buffer is unchanged. *)
Theorem DrawShiftedChar_composes (ucFont : Z -> Z) (s1 s2 d bXOff v : Z) (m : machine) :
  1 <= v <= 7 -> 0 <= bXOff <= 8 -> 0 <= d ->
  d + (8 - bXOff) <= Z.of_nat (length (bTemp m)) ->
  let out k :=
    Z.lor (Z.shiftr (pgm_read_byte ucFont (s1 + k)) v)
          (Z.land (Z.shiftl (pgm_read_byte ucFont (s2 + k)) (8 - v)) 255) in
  let m' := DrawShiftedChar ucFont s1 s2 d bXOff v m in
  trace m' = trace m ++ store_events d (run_of out (Z.to_nat (8 - bXOff)))
  /\ Z.of_nat (length (run_of out (Z.to_nat (8 - bXOff)))) = 8 - bXOff
  /\ (forall k, 0 <= k < 8 - bXOff -> bTemp m' !! Z.to_nat (d + k) = Some (out k))
  /\ (forall i : nat, (i < Z.to_nat d \/ Z.to_nat (d + (8 - bXOff)) <= i)%nat ->
        bTemp m' !! i = bTemp m !! i).
Proof.
  intros Hv Hx Hd Hlen out m'.
  assert (E : m' = stores d (run_of out (Z.to_nat (8 - bXOff))) m).
  { unfold m', DrawShiftedChar. rewrite DrawShiftedChar_loop_stores. f_equal.
    apply run_of_ext. intros k _. apply shifted_byte_formula.
    - apply pgm_read_byte_range.
    - lia. }
  rewrite E. split; [apply stores_trace|].
  split; [rewrite run_of_length; lia|].
  split.
  - intros k Hk. replace (Z.to_nat (d + k)) with (Z.to_nat d + Z.to_nat k)%nat by lia.
    rewrite (stores_lookup_in _ _ _ _ (out k)).
    + reflexivity.
    + exact Hd.
    + rewrite run_of_lookup by lia. f_equal. f_equal. lia.
    + rewrite run_of_length. lia.
  - intros i Hi. apply stores_lookup_out; [exact Hd|]. rewrite run_of_length. lia.
Qed.

Lemma DrawShiftedChar_composes_witness :
  bTemp (DrawShiftedChar Demo.ucFont 264 272 0 0 3 Demo.setup) !! 2%nat =
  Some (Z.lor (Z.shiftr (pgm_read_byte Demo.ucFont 266) 3)
              (Z.land (Z.shiftl (pgm_read_byte Demo.ucFont 274) 5) 255)).
Proof.
  assert (H : 0 + (8 - 0) <= Z.of_nat (length (bTemp Demo.setup)))
    by (vm_compute; discriminate).
  exact (proj1 (proj2 (proj2
           (DrawShiftedChar_composes Demo.ucFont 264 272 0 0 3 Demo.setup
              ltac:(lia) ltac:(lia) ltac:(lia) H))) 2 ltac:(lia)).
Defined.

(** ** Uniform fills *)

(** C7 as stated fails: the fill 0x55 shifted by one row comes out as 0xAA. *)
Lemma uniform_fill_counterexample :
  In 85 fills /\ 1 <= 1 <= 7 /\ shifted_byte 85 85 1 = 170 /\ shifted_byte 85 85 1 <> 85.
Proof.
  split; [unfold fills; simpl; tauto|].
  split; [lia|]. split; [reflexivity|]. vm_compute. discriminate.
Qed.

(** C7, amended.  With both sources filled with [b], [DrawShiftedChar]
    stores [b] itself when [b] is 0x00 or 0xFF, or when the offset is even;
    at an odd offset the fills 0x55 and 0xAA come out exchanged
    ([255 - b]). *)
Theorem uniform_fill_rotates (b v s1 s2 d bXOff : Z) (m : machine) :
  In b fills -> 1 <= v <= 7 ->
  let b' := if (b =? 0) || (b =? 255) || Z.even v then b else 255 - b in
  shifted_byte b b v = b' /\
  DrawShiftedChar (fun _ => b) s1 s2 d bXOff v m =
  stores d (replicate (Z.to_nat (8 - bXOff)) b') m.
Proof.
  intros Hb Hv b'.
  assert (E : shifted_byte b b v = b').
  { unfold b'. assert (Hv' : v = 1 \/ v = 2 \/ v = 3 \/ v = 4 \/ v = 5 \/ v = 6 \/ v = 7) by lia.
    unfold fills in Hb. simpl in Hb.
    destruct Hb as [<-|[<-|[<-|[<-|[]]]]];
      destruct Hv' as [->|[->|[->|[->|[->|[->| ->]]]]]]; reflexivity. }
  split; [exact E|].
  unfold DrawShiftedChar. rewrite DrawShiftedChar_loop_stores.
  assert (Hp : pgm_read_byte (fun _ => b) 0 = b).
  { unfold pgm_read_byte. apply to_byte_small. unfold fills in Hb. simpl in Hb.
    destruct Hb as [<-|[<-|[<-|[<-|[]]]]]; lia. }
  unfold pgm_read_byte in *. rewrite Hp, E. now rewrite run_of_const.
Qed.

Lemma uniform_fill_rotates_witness :
  shifted_byte 170 170 3 = 85 /\
  DrawShiftedChar (fun _ => 170) 0 0 0 0 3 Demo.setup =
  stores 0 (replicate 8 85) Demo.setup.
Proof.
  apply (uniform_fill_rotates 170 3 0 0 0 0 Demo.setup).
  - unfold fills. simpl. tauto.
  - lia.
Defined.

(** ** Sprites *)

Lemma bSize_of_testbit b : bSize_of b = if Z.testbit b 7 then 16 else 8.
Proof.
  unfold bSize_of.
  assert (E : Z.land b 128 = if Z.testbit b 7 then 128 else 0).
  { apply Z.bits_inj'. intros n Hn. rewrite Z.land_spec.
    change 128 with (2 ^ 7).
    destruct (Z.testbit b 7) eqn:Hb.
    - rewrite Z.pow2_bits_eqb by lia.
      destruct (Z.eqb_spec 7 n) as [<-|Hne].
      + now rewrite Hb.
      + apply andb_false_r.
    - rewrite Z.bits_0, Z.pow2_bits_eqb by lia.
      destruct (Z.eqb_spec 7 n) as [<-|Hne].
      + now rewrite Hb.
      + apply andb_false_r. }
  rewrite E. destruct (Z.testbit b 7); reflexivity.
Qed.

Lemma bWidth_of_min w ox :
  0 < w <= 16 -> ox < 128 -> 0 <= ox -> bWidth_of w ox = Z.min w (128 - ox).
Proof.
  intros Hw Hx Hx0. unfold bWidth_of. destruct (Z.ltb_spec (128 - ox) w).
  - rewrite to_byte_small by lia. lia.
  - lia.
Qed.

Section Sprites.

Variables ucSprites ucBigSprites : Z -> Z.


Lemma visible_tests y0 o :
  visible y0 o <->
  (y o >=? y0 + 8) = false /\ (y o + bSize_of (bType o) <=? y0) = false /\
  (x o >=? 128) = false.
Proof.
  unfold visible. rewrite bSize_of_testbit.
  rewrite Z.geb_leb, !Z.leb_gt, Z.geb_leb, Z.leb_gt. lia.
Qed.

Lemma draw_object_skip y0 o m : ~ visible y0 o -> draw_object ucSprites ucBigSprites y0 o m = m.
Proof.
  intros H. unfold draw_object.
  destruct (y o >=? y0 + 8) eqn:E1; [reflexivity|].
  destruct (y o + bSize_of (bType o) <=? y0) eqn:E2; [reflexivity|].
  destruct (x o >=? 128) eqn:E3; [reflexivity|].
  exfalso. apply H. apply visible_tests. auto.
Qed.

Lemma draw_object_stores y0 o m :
  visible y0 o -> 0 <= x o ->
  draw_object ucSprites ucBigSprites y0 o m =
  stores (x o)
         (run_of (fun k => composite (peek m (x o + k))
                                     (fst (sprite_cell ucSprites ucBigSprites y0 o k))
                                     (snd (sprite_cell ucSprites ucBigSprites y0 o k)))
                 (Z.to_nat (sprite_width o))) m.
Proof.
  intros Hv Hx. apply visible_tests in Hv. destruct Hv as (E1 & E2 & E3).
  unfold draw_object, sprite_cell, sprite_width.
  rewrite E1, E2, E3.
  destruct (bSize_of (bType o) =? 16) eqn:Es.
  - apply Z.eqb_eq in Es. rewrite Es.
    destruct (Z.land (y o) 7 =? 0); [|destruct (y o + 8 <? y0); [|destruct (y o >? y0)]];
      rewrite blit_stores by exact Hx; reflexivity.
  - assert (Es' : bSize_of (bType o) = 8).
    { unfold bSize_of in *. destruct (Z.land (bType o) 128 =? 0); [reflexivity|discriminate]. }
    rewrite Es'. rewrite blit_stores by exact Hx. reflexivity.
Qed.

Lemma visible_dec y0 o : visible y0 o \/ ~ visible y0 o.
Proof. unfold visible. destruct (Z.testbit (bType o) 7); lia. Qed.

Lemma blit_globals cell n : forall s d m, same_globals m (blit cell n s d m).
Proof.
  induction n as [|n IH]; intros s d m; simpl.
  - apply same_globals_refl.
  - destruct (cell s) as [mask cNew].
    eapply same_globals_trans; [|apply IH]. repeat split.
Qed.

Lemma blit_length cell n : forall s d m,
  length (bTemp (blit cell n s d m)) = length (bTemp m).
Proof.
  induction n as [|n IH]; intros s d m; simpl; [reflexivity|].
  destruct (cell s) as [mask cNew]. rewrite IH. simpl. apply length_insert.
Qed.

Ltac draw_object_cases :=
  unfold draw_object;
  repeat match goal with
         | |- context [if ?b then _ else _] => destruct b
         end.

Lemma draw_object_globals y0 o m :
  same_globals m (draw_object ucSprites ucBigSprites y0 o m).
Proof.
  draw_object_cases; first [apply same_globals_refl | apply blit_globals].
Qed.

Lemma draw_object_length y0 o m :
  length (bTemp (draw_object ucSprites ucBigSprites y0 o m)) = length (bTemp m).
Proof.
  draw_object_cases; first [reflexivity | apply blit_length].
Qed.

(** The byte at [c] after one sprite: composited where the sprite has a
    column, untouched elsewhere. *)
Lemma draw_object_peek_covered y0 o m c :
  covers y0 o c -> 0 <= x o -> (Z.to_nat (x o + sprite_width o) <= length (bTemp m))%nat ->
  peek (draw_object ucSprites ucBigSprites y0 o m) c =
  composite (peek m c)
            (fst (sprite_cell ucSprites ucBigSprites y0 o (c - x o)))
            (snd (sprite_cell ucSprites ucBigSprites y0 o (c - x o))).
Proof.
  intros [Hv Hc] Hx Hlen. rewrite draw_object_stores by assumption.
  unfold peek at 1.
  replace (Z.to_nat c) with (Z.to_nat (x o) + Z.to_nat (c - x o))%nat by lia.
  erewrite stores_lookup_in; [reflexivity|exact Hx| |rewrite run_of_length; lia].
  rewrite run_of_lookup by lia. simpl.
  rewrite Z2Nat.id by lia. do 3 f_equal. lia.
Qed.

Lemma draw_object_peek_uncovered y0 o m c :
  ~ covers y0 o c -> 0 <= x o -> 0 <= c ->
  peek (draw_object ucSprites ucBigSprites y0 o m) c = peek m c.
Proof.
  intros Hn Hx Hc. destruct (visible_dec y0 o) as [Hv|Hv].
  - rewrite draw_object_stores by assumption. unfold peek.
    rewrite stores_lookup_out; [reflexivity|exact Hx|].
    rewrite run_of_length. unfold covers in Hn.
    assert (Hw : 0 <= sprite_width o).
    { unfold sprite_width, bWidth_of, bSize_of.
      pose proof (to_byte_range (128 - x o)).
      destruct (Z.land (bType o) 128 =? 0); destruct (_ <? _); lia. }
    assert (Hout : ~ (x o <= c < x o + sprite_width o)) by tauto.
    lia.
  - now rewrite draw_object_skip.
Qed.

(** The loop of [DrawSprites] is a left fold over the object list. *)
Lemma DrawSprites_loop_fold y0 n : forall i m,
  DrawSprites_loop ucSprites ucBigSprites y0 n i m =
  draw_all ucSprites ucBigSprites y0 (take n (drop i (object_list m))) m.
Proof.
  induction n as [|n IH]; intros i m; simpl; [reflexivity|].
  destruct (object_list m !! i) as [o|] eqn:E.
  - rewrite IH. destruct (draw_object_globals y0 o m) as (_ & -> & _).
    erewrite (drop_S _ _ i) by exact E. reflexivity.
  - apply lookup_ge_None in E.
    rewrite IH, !drop_ge by lia. now rewrite !take_nil.
Qed.

Lemma DrawSprites_fold y0 bCount m :
  DrawSprites ucSprites ucBigSprites y0 bCount m =
  draw_all ucSprites ucBigSprites y0 (take (Z.to_nat bCount) (object_list m)) m.
Proof. unfold DrawSprites. rewrite DrawSprites_loop_fold. now rewrite drop_0. Qed.

Lemma draw_all_app y0 l1 l2 m :
  draw_all ucSprites ucBigSprites y0 (l1 ++ l2) m =
  draw_all ucSprites ucBigSprites y0 l2 (draw_all ucSprites ucBigSprites y0 l1 m).
Proof. unfold draw_all. apply fold_left_app. Qed.

Lemma draw_all_cons y0 o l m :
  draw_all ucSprites ucBigSprites y0 (o :: l) m =
  draw_all ucSprites ucBigSprites y0 l (draw_object ucSprites ucBigSprites y0 o m).
Proof. reflexivity. Qed.

Lemma draw_all_length y0 l : forall m,
  length (bTemp (draw_all ucSprites ucBigSprites y0 l m)) = length (bTemp m).
Proof.
  induction l as [|o l IH]; intros m; [reflexivity|].
  rewrite draw_all_cons, IH. apply draw_object_length.
Qed.

Lemma draw_all_peek_uncovered y0 c l : forall m,
  0 <= c ->
  Forall (fun o => byte_fields o) l ->
  Forall (fun o => ~ covers y0 o c) l ->
  peek (draw_all ucSprites ucBigSprites y0 l m) c = peek m c.
Proof.
  induction l as [|o l IH]; intros m Hc Hb Hn; [reflexivity|].
  inversion Hb as [|? ? Hbo Hbl]; subst. inversion Hn as [|? ? Hno Hnl]; subst.
  rewrite draw_all_cons, IH by assumption.
  apply draw_object_peek_uncovered; [assumption| |assumption].
  destruct Hbo as [? _]. lia.
Qed.

Lemma sprite_width_pos o : x o < 128 -> 1 <= sprite_width o.
Proof.
  intros Hx. unfold sprite_width, bWidth_of.
  assert (Hs : bSize_of (bType o) = 8 \/ bSize_of (bType o) = 16).
  { unfold bSize_of. destruct (_ =? _); auto. }
  destruct (Z.ltb_spec (128 - x o) (bSize_of (bType o))).
  - rewrite to_byte_small by lia. lia.
  - lia.
Qed.

Lemma sprite_width_min o :
  0 <= x o < 128 ->
  sprite_width o = Z.min (if Z.testbit (bType o) 7 then 16 else 8) (128 - x o).
Proof.
  intros Hx. unfold sprite_width. rewrite bSize_of_testbit.
  apply bWidth_of_min; [destruct (Z.testbit _ _)|..]; lia.
Qed.

Lemma blit_trace cell n : forall s d m,
  exists evs, trace (blit cell n s d m) = trace m ++ evs /\ length evs = n.
Proof.
  induction n as [|n IH]; intros s d m; simpl.
  - exists []. now rewrite app_nil_r.
  - destruct (cell s) as [mask cNew].
    destruct (IH (s + 1) (d + 1) (poke d (composite (peek m d) mask cNew) m))
      as (evs & E & L).
    eexists (_ :: evs). rewrite E. simpl. rewrite <- app_assoc. simpl.
    split; [reflexivity|]. simpl. now rewrite L.
Qed.

Lemma draw_object_trace y0 o m :
  visible y0 o ->
  exists evs, trace (draw_object ucSprites ucBigSprites y0 o m) = trace m ++ evs /\
              length evs = Z.to_nat (sprite_width o).
Proof.
  intros Hv. apply visible_tests in Hv. destruct Hv as (E1 & E2 & E3).
  unfold draw_object, sprite_width. rewrite E1, E2, E3.
  destruct (bSize_of (bType o) =? 16) eqn:Es.
  - apply Z.eqb_eq in Es. rewrite Es.
    destruct (Z.land (y o) 7 =? 0); [|destruct (y o + 8 <? y0); [|destruct (y o >? y0)]];
      apply blit_trace.
  - assert (Es' : bSize_of (bType o) = 8).
    { unfold bSize_of in *. destruct (Z.land (bType o) 128 =? 0); [reflexivity|discriminate]. }
    rewrite Es'. apply blit_trace.
Qed.

Lemma visible_fits y0 o :
  visible y0 o -> 0 <= x o -> x o + sprite_width o <= 128.
Proof.
  intros Hv Hx. rewrite sprite_width_min by (split; [exact Hx|apply Hv]). lia.
Qed.

Lemma shown_visible y0 o : shown y0 o = true <-> visible y0 o.
Proof.
  unfold shown, visible. rewrite !andb_true_iff, !Z.ltb_lt. lia.
Qed.

(** The loop draws the visible objects and passes over the others. *)
Lemma draw_all_shown y0 l : forall m,
  draw_all ucSprites ucBigSprites y0 l m =
  draw_all ucSprites ucBigSprites y0 (List.filter (shown y0) l) m.
Proof.
  induction l as [|o l IH]; intros m; [reflexivity|].
  rewrite draw_all_cons. simpl List.filter.
  destruct (shown y0 o) eqn:E.
  - rewrite draw_all_cons. apply IH.
  - rewrite draw_object_skip; [apply IH|].
    intros Hv. apply shown_visible in Hv. congruence.
Qed.

Lemma shown_filter_visible y0 l : Forall (visible y0) (List.filter (shown y0) l).
Proof.
  apply List.Forall_forall. intros o Ho. apply filter_In in Ho.
  apply shown_visible. apply Ho.
Qed.

Lemma shown_filter_bytes y0 l :
  Forall byte_fields l -> Forall byte_fields (List.filter (shown y0) l).
Proof.
  intros H. apply List.Forall_forall. intros o Ho. apply filter_In in Ho.
  rewrite List.Forall_forall in H. apply H. apply Ho.
Qed.

(** One visible sprite, byte by byte. *)
Lemma draw_object_paints y0 o m c :
  byte_fields o -> visible y0 o -> length (bTemp m) = 128%nat -> 0 <= c ->
  peek (draw_object ucSprites ucBigSprites y0 o m) c =
  paint_byte ucSprites ucBigSprites y0 c (peek m c) o.
Proof.
  intros [Hx _] Hv Hlen Hc. unfold paint_byte.
  assert (Hx128 : x o < 128) by apply Hv.
  rewrite <- sprite_width_min by lia.
  pose proof (visible_fits y0 o Hv ltac:(lia)) as Hfit.
  destruct (Z.leb_spec (x o) c) as [H1|H1];
    [destruct (Z.ltb_spec c (x o + sprite_width o)) as [H2|H2]|]; simpl.
  - rewrite draw_object_peek_covered; [reflexivity|split; [exact Hv|lia]|lia|lia].
  - apply draw_object_peek_uncovered; [|lia|exact Hc]. intros [_ ?]. lia.
  - apply draw_object_peek_uncovered; [|lia|exact Hc]. intros [_ ?]. lia.
Qed.

Lemma draw_all_paints y0 c l : forall m,
  Forall byte_fields l -> Forall (visible y0) l ->
  length (bTemp m) = 128%nat -> 0 <= c ->
  peek (draw_all ucSprites ucBigSprites y0 l m) c =
  fold_left (paint_byte ucSprites ucBigSprites y0 c) l (peek m c).
Proof.
  induction l as [|o l IH]; intros m Hb Hv Hlen Hc; [reflexivity|].
  inversion Hb as [|? ? Hbo Hbl]; subst. inversion Hv as [|? ? Hvo Hvl]; subst.
  rewrite draw_all_cons, IH; try assumption.
  - simpl. now rewrite draw_object_paints.
  - now rewrite draw_object_length.
Qed.

(** The stores of one visible sprite: a run of [min(height, 128 - x)]
    bytes from [x] on. *)
Lemma draw_object_run y0 o m :
  byte_fields o -> visible y0 o ->
  exists vs,
    trace (draw_object ucSprites ucBigSprites y0 o m) =
      trace m ++ store_events (x o) vs /\
    Z.of_nat (length vs) =
      Z.min (if Z.testbit (bType o) 7 then 16 else 8) (128 - x o).
Proof.
  intros [Hx _] Hv.
  rewrite draw_object_stores by (first [exact Hv | lia]).
  eexists. split; [apply stores_trace|].
  rewrite run_of_length, <- sprite_width_min by (split; [lia|apply Hv]).
  pose proof (sprite_width_pos o ltac:(apply Hv)). lia.
Qed.

Lemma draw_all_runs y0 l : forall m,
  Forall byte_fields l -> Forall (visible y0) l ->
  exists runs,
    trace (draw_all ucSprites ucBigSprites y0 l m) = trace m ++ concat runs /\
    Forall2 (sprite_run) l runs.
Proof.
  induction l as [|o l IH]; intros m Hb Hv.
  - exists []. simpl. split; [now rewrite app_nil_r|constructor].
  - inversion Hb as [|? ? Hbo Hbl]; subst. inversion Hv as [|? ? Hvo Hvl]; subst.
    rewrite draw_all_cons.
    destruct (IH (draw_object ucSprites ucBigSprites y0 o m) Hbl Hvl) as (runs & E & F).
    destruct (draw_object_run y0 o m Hbo Hvo) as (vs & Eo & L).
    exists (store_events (x o) vs :: runs). split.
    + rewrite E, Eo. simpl. now rewrite <- app_assoc.
    + constructor; [|exact F]. exists vs. split; [reflexivity|]. split; [|exact L].
      pose proof (sprite_width_pos o ltac:(apply Hvo)).
      destruct Hbo as [? _].
      rewrite <- sprite_width_min in L by (split; [lia|apply Hvo]).
      destruct vs; [simpl in L; lia|discriminate].
Qed.

(** C3.  [DrawSprites] draws, in list order, exactly the sprites that pass
    the three visibility tests [y < y0 + 8], [y + spriteHeight > y0] and
    [x < 128]: the machine it leaves is the one that drawing only those
    sprites leaves; its stores are one non-empty run of
    [min(spriteHeight, 128 - x)] bytes from [x] on for each of them and
    nothing else; and every byte of the row buffer is the old byte with
    [(byte & mask) | pattern] applied for each of them that has a column
    there.  When no sprite passes, the machine, and so the buffer, is as it
    was.  A lone sprite at [y = 16] is skipped on page 0; on page 2 (top
    row 16) it is drawn, given [x < 128]. *)
Theorem sprite_drawn_iff_visible (y0 bCount : Z) (m : machine) :
  Forall byte_fields (object_list m) ->
  length (bTemp m) = 128%nat ->
  let sprites := take (Z.to_nat bCount) (object_list m) in
  let passes := fun y0 o =>
    (y o <? y0 + 8) && (y0 <? y o + (if Z.testbit (bType o) 7 then 16 else 8))
    && (x o <? 128) in
  let drawn := List.filter (passes y0) sprites in
  let m' := DrawSprites ucSprites ucBigSprites y0 bCount m in
  m' = draw_all ucSprites ucBigSprites y0 drawn m
  /\ (exists runs, trace m' = trace m ++ concat runs /\ Forall2 sprite_run drawn runs)
  /\ (forall c, 0 <= c < 128 ->
        peek m' c = fold_left (paint_byte ucSprites ucBigSprites y0 c) drawn (peek m c))
  /\ (drawn = [] -> m' = m)
  /\ (forall o, sprites = [o] -> y o = 16 ->
        DrawSprites ucSprites ucBigSprites (0 * 8) bCount m = m /\
        (x o < 128 ->
         let m2 := DrawSprites ucSprites ucBigSprites (2 * 8) bCount m in
         let w := Z.min (if Z.testbit (bType o) 7 then 16 else 8) (128 - x o) in
         trace m2 <> trace m /\
         forall k, 0 <= k < w ->
           peek m2 (x o + k) =
           Z.lor (Z.land (peek m (x o + k))
                         (fst (sprite_cell ucSprites ucBigSprites (2 * 8) o k)))
                 (snd (sprite_cell ucSprites ucBigSprites (2 * 8) o k)))).
Proof.
  intros Hb Hlen sprites passes drawn m'.
  assert (Hbs : Forall byte_fields sprites) by (apply Forall_take; exact Hb).
  assert (Fold : forall y1,
            DrawSprites ucSprites ucBigSprites y1 bCount m =
            draw_all ucSprites ucBigSprites y1 (List.filter (shown y1) sprites) m).
  { intros y1. rewrite DrawSprites_fold. apply draw_all_shown. }
  change (List.filter (passes y0) sprites) with (List.filter (shown y0) sprites) in drawn.
  assert (E : m' = draw_all ucSprites ucBigSprites y0 drawn m) by apply Fold.
  split; [exact E|]. split; [|split; [|split]].
  - rewrite E. apply draw_all_runs.
    + now apply shown_filter_bytes.
    + apply shown_filter_visible.
  - intros c Hc. rewrite E. apply draw_all_paints; try lia.
    + now apply shown_filter_bytes.
    + apply shown_filter_visible.
  - intros Hnil. rewrite E, Hnil. reflexivity.
  - intros o Ho Hy. rewrite !Fold, Ho.
    assert (Hbo : byte_fields o).
    { rewrite Ho in Hbs. now inversion Hbs. }
    split.
    + change (List.filter (shown (0 * 8)) [o]) with (if shown (0 * 8) o then [o] else []).
      replace (shown (0 * 8) o) with false; [reflexivity|].
      symmetry. apply not_true_is_false. intros Hs. apply shown_visible in Hs.
      unfold visible in Hs. lia.
    + intros Hx m2 w.
      assert (Hv : visible (2 * 8) o).
      { unfold visible. rewrite Hy. destruct (Z.testbit (bType o) 7); lia. }
      assert (Hs : shown (2 * 8) o = true) by now apply shown_visible.
      unfold m2. clear m2.
      change (List.filter (shown (2 * 8)) [o]) with (if shown (2 * 8) o then [o] else []).
      rewrite Hs, draw_all_cons.
      change (draw_all ucSprites ucBigSprites (2 * 8) [] ?m0) with m0.
      split.
      * destruct (draw_object_run (2 * 8) o m Hbo Hv) as (vs & Et & L).
        rewrite Et. intros Heq. apply (f_equal (@length event)) in Heq.
        rewrite length_app in Heq.
        assert (vs <> []).
        { destruct Hbo as [? _]. intros ->.
          change (Z.of_nat (length (@nil Z))) with 0 in L.
          destruct (Z.testbit (bType o) 7); lia. }
        destruct vs; [congruence|]. simpl in Heq. lia.
      * intros k Hk. destruct Hbo as [Hxo Hrest].
        rewrite draw_object_paints; [|split; [lia|exact Hrest]|exact Hv|exact Hlen|lia].
        unfold paint_byte. fold w.
        replace (x o <=? x o + k) with true by (symmetry; apply Z.leb_le; lia).
        replace (x o + k <? x o + w) with true by (symmetry; apply Z.ltb_lt; lia).
        simpl. now replace (x o + k - x o) with k by lia.
Qed.






(** C10, amended.  [DrawSprites] composites the objects in increasing
    index order.  When [oi] comes before [oj] in the list, both have a
    column at [bTemp[c]] and no object after [oi] other than [oj] has one,
    the final byte is [oi]'s mask and pattern applied to what the earlier
    objects left, then [oj]'s; so wherever [oj]'s mask bit is 0 the final
    bit is [oj]'s pattern bit. *)
Theorem sprites_painted_in_order (y0 bCount c : Z) (m : machine)
        (l1 l2 l3 : list GFX_OBJECT) (oi oj : GFX_OBJECT) :
  object_list m = l1 ++ oi :: l2 ++ oj :: l3 ->
  bCount = Z.of_nat (length (object_list m)) ->
  Forall byte_fields (object_list m) ->
  length (bTemp m) = 128%nat ->
  covers y0 oi c -> covers y0 oj c ->
  Forall (fun o => ~ covers y0 o c) (l2 ++ l3) ->
  let below := peek (draw_all ucSprites ucBigSprites y0 l1 m) c in
  let ci := sprite_cell ucSprites ucBigSprites y0 oi (c - x oi) in
  let cj := sprite_cell ucSprites ucBigSprites y0 oj (c - x oj) in
  let final := peek (DrawSprites ucSprites ucBigSprites y0 bCount m) c in
  final = composite (composite below (fst ci) (snd ci)) (fst cj) (snd cj)
  /\ (forall n, 0 <= n -> Z.testbit (fst cj) n = false ->
        Z.testbit final n = Z.testbit (snd cj) n).
Proof.
  intros Hl Hcount Hb Hlen Hci Hcj Hnone below ci cj final.
  rewrite Hl in Hb.
  apply Forall_app in Hb. destruct Hb as [Hb1 Hb].
  apply Forall_cons in Hb. destruct Hb as [Hbi Hb].
  apply Forall_app in Hb. destruct Hb as [Hb2 Hb].
  apply Forall_cons in Hb. destruct Hb as [Hbj Hb3].
  apply Forall_app in Hnone. destruct Hnone as [Hn2 Hn3].
  assert (Hc : 0 <= c) by (destruct Hci as [_ ?]; destruct Hbi as [? _]; lia).
  assert (E : final = composite (composite below (fst ci) (snd ci)) (fst cj) (snd cj)).
  { unfold final. rewrite DrawSprites_fold, Hcount, Nat2Z.id, firstn_all, Hl.
    rewrite draw_all_app, draw_all_cons, draw_all_app, draw_all_cons.
    rewrite draw_all_peek_uncovered by assumption.
    rewrite draw_object_peek_covered; [|exact Hcj|destruct Hbj; lia|].
    2:{ rewrite draw_all_length, draw_object_length, draw_all_length, Hlen.
        pose proof (visible_fits y0 oj (proj1 Hcj) ltac:(destruct Hbj; lia)). lia. }
    rewrite draw_all_peek_uncovered by assumption.
    rewrite draw_object_peek_covered; [reflexivity|exact Hci|destruct Hbi; lia|].
    rewrite draw_all_length, Hlen.
    pose proof (visible_fits y0 oi (proj1 Hci) ltac:(destruct Hbi; lia)). lia. }
  split; [exact E|].
  intros n Hn Hbit. rewrite E. unfold composite at 1.
  rewrite Z.lor_spec, Z.land_spec, Hbit, andb_false_r. reflexivity.
Qed.

End Sprites.



Lemma Demo_setup_bytes : Forall byte_fields (object_list Demo.setup).
Proof.
  apply List.Forall_forall. intros o Ho. vm_compute in Ho.
  repeat (destruct Ho as [<-|Ho]; [unfold byte_fields; simpl; lia|]).
  destruct Ho.
Defined.

(** On page 0 of the demo's first frame the loop draws the seven sprites
    whose [y] is 0, out of nineteen. *)
Lemma sprite_drawn_iff_visible_witness :
  DrawSprites Demo.ucSprites Demo.ucBigSprites 0 19 Demo.setup =
  draw_all Demo.ucSprites Demo.ucBigSprites 0
           (List.filter (shown 0) (take 19 (object_list Demo.setup))) Demo.setup
  /\ length (List.filter (shown 0) (take 19 (object_list Demo.setup))) = 7%nat.
Proof.
  split; [|reflexivity].
  exact (proj1 (sprite_drawn_iff_visible Demo.ucSprites Demo.ucBigSprites 0 19
                  Demo.setup Demo_setup_bytes eq_refl)).
Defined.


(** C10 as stated fails in the demo.  At the 149th frame the scroll is
    (4, 68) and the big sprite 15 stands at (2, 4).  On page 0 sprites 0
    and 15 both have a column at [bTemp[4]], and so have sprites 16 to 18,
    which come after them: the byte sent to the display is 127, not the
    111 that compositing sprite 0 first and sprite 15 second gives. *)
Lemma painters_order_counterexample :
  let m := Demo.frame 148 in
  let row := snd (row_shifted Demo.ucFont (wrap_ty (Z.shiftr 68 3)) (Z.land 68 7)
                              (Z.shiftr 4 3) (Z.land 4 7) (clear_row m)) in
  let oi := mkObject 0 0 0 in
  let oj := mkObject 2 4 128 in
  let ci := sprite_cell Demo.ucSprites Demo.ucBigSprites 0 oi (4 - x oi) in
  let cj := sprite_cell Demo.ucSprites Demo.ucBigSprites 0 oj (4 - x oj) in
  let final := peek (DrawSprites Demo.ucSprites Demo.ucBigSprites 0 19 row) 4 in
  iScrollX m = 4 /\ iScrollY m = 68 /\
  object_list m !! 0%nat = Some oi /\ object_list m !! 15%nat = Some oj /\
  object_list m !! 16%nat = Some oi /\
  covers 0 oi 4 /\ covers 0 oj 4 /\
  head (sent (draw_frame Demo.ucFont Demo.ucSprites Demo.ucBigSprites
                         Demo.numberOfSprites m)) =
    Some (0, bTemp (DrawSprites Demo.ucSprites Demo.ucBigSprites 0 19 row)) /\
  final = 127 /\
  composite (composite (peek row 4) (fst ci) (snd ci)) (fst cj) (snd cj) = 111.
Proof.
  cbv zeta.
  split; [reflexivity|]. split; [reflexivity|].
  split; [reflexivity|]. split; [reflexivity|]. split; [reflexivity|].
  split; [unfold covers, visible; vm_compute; intuition discriminate|].
  split; [unfold covers, visible; vm_compute; intuition discriminate|].
  split; [vm_compute; reflexivity|].
  split; vm_compute; reflexivity.
Qed.

Lemma sprites_painted_in_order_witness :
  peek (DrawSprites Demo.ucSprites Demo.ucBigSprites 0 2 overlapping) 13 =
  composite
    (composite (peek overlapping 13)
       (fst (sprite_cell Demo.ucSprites Demo.ucBigSprites 0 (mkObject 10 0 0) 3))
       (snd (sprite_cell Demo.ucSprites Demo.ucBigSprites 0 (mkObject 10 0 0) 3)))
    (fst (sprite_cell Demo.ucSprites Demo.ucBigSprites 0 (mkObject 12 0 0) 1))
    (snd (sprite_cell Demo.ucSprites Demo.ucBigSprites 0 (mkObject 12 0 0) 1)).
Proof.
  refine (proj1 (sprites_painted_in_order Demo.ucSprites Demo.ucBigSprites 0 2 13
                   overlapping [] [] [] (mkObject 10 0 0) (mkObject 12 0 0)
                   _ _ _ _ _ _ _)).
  - reflexivity.
  - reflexivity.
  - repeat constructor; simpl; lia.
  - reflexivity.
  - unfold covers, visible. vm_compute. intuition discriminate.
  - unfold covers, visible. vm_compute. intuition discriminate.
  - constructor.
Defined.

(** ** What the page renderer leaves alone *)

Lemma quiet_refl m : quiet m m.
Proof. split; [apply same_globals_refl|reflexivity]. Qed.

Lemma quiet_trans m1 m2 m3 : quiet m1 m2 -> quiet m2 m3 -> quiet m1 m3.
Proof.
  intros [G1 P1] [G2 P2]. split.
  - eapply same_globals_trans; eassumption.
  - congruence.
Qed.

Lemma partial_entries_log e m :
  partial_entries (log e m) = (partial_entries m + (if is_partial e then 1 else 0))%nat.
Proof.
  unfold partial_entries, log. simpl. rewrite List.filter_app, length_app. simpl.
  destruct (is_partial e); reflexivity.
Qed.

Lemma quiet_log e m : is_partial e = false -> quiet m (log e m).
Proof.
  intros H. split; [repeat split|]. rewrite partial_entries_log, H. lia.
Qed.

Lemma quiet_poke d v m : quiet m (poke d v m).
Proof.
  split; [repeat split|].
  unfold partial_entries, poke. simpl. rewrite List.filter_app, length_app. simpl. lia.
Qed.

Lemma quiet_stores vs : forall d m, quiet m (stores d vs m).
Proof.
  induction vs as [|v vs IH]; intros d m; simpl.
  - apply quiet_refl.
  - eapply quiet_trans; [apply quiet_poke|apply IH].
Qed.

Lemma quiet_clear_row m : quiet m (clear_row m).
Proof. split; [repeat split|reflexivity]. Qed.

Lemma quiet_send_row pg m : quiet m (send_row pg m).
Proof. apply quiet_log. reflexivity. Qed.

Section Pages.

Variables ucFont ucSprites ucBigSprites : Z -> Z.
Variable numberOfSprites : Z.

Lemma quiet_DrawShiftedChar s1 s2 d bXOff bYOff m :
  quiet m (DrawShiftedChar ucFont s1 s2 d bXOff bYOff m).
Proof. unfold DrawShiftedChar. rewrite DrawShiftedChar_loop_stores. apply quiet_stores. Qed.

Lemma quiet_memcpy_P d s n m : quiet m (memcpy_P ucFont d s n m).
Proof. unfold memcpy_P. rewrite memcpy_P_loop_stores. apply quiet_stores. Qed.

Lemma quiet_blit cell n : forall s d m, quiet m (blit cell n s d m).
Proof.
  induction n as [|n IH]; intros s d m; simpl.
  - apply quiet_refl.
  - destruct (cell s) as [mask cNew].
    eapply quiet_trans; [apply quiet_poke|apply IH].
Qed.

Lemma quiet_draw_object y0 o m : quiet m (draw_object ucSprites ucBigSprites y0 o m).
Proof.
  unfold draw_object;
  repeat match goal with
         | |- context [if ?b then _ else _] => destruct b
         end; first [apply quiet_refl | apply quiet_blit].
Qed.

Lemma quiet_DrawSprites y0 bCount m :
  quiet m (DrawSprites ucSprites ucBigSprites y0 bCount m).
Proof.
  unfold DrawSprites. generalize 0%nat as i. revert m.
  induction (Z.to_nat bCount) as [|n IH]; intros m i; simpl.
  - apply quiet_refl.
  - eapply quiet_trans; [|apply IH].
    destruct (object_list m !! i); [apply quiet_draw_object|apply quiet_refl].
Qed.

(** The cell loops: where the cursor ends, and what they leave alone. *)
Lemma cells_copied_end n : forall ty tx d bXOff m,
  exists tx' m',
    cells_copied ucFont n ty tx d bXOff m =
      (tx',
       match n with O => d | S k => d + (8 - bXOff) + 8 * Z.of_nat k end,
       match n with O => bXOff | S _ => 0 end,
       m') /\
    quiet m m'.
Proof.
  induction n as [|n IH]; intros ty tx d bXOff m.
  - exists tx, m. split; [reflexivity|apply quiet_refl].
  - simpl cells_copied.
    match goal with
    | |- context [cells_copied ucFont n ty ?tx1 ?d1 0 ?m1] =>
        destruct (IH ty tx1 d1 0 m1) as (tx' & m' & E & Q)
    end.
    exists tx', m'. rewrite E. split.
    + destruct n; f_equal; f_equal; f_equal; lia.
    + eapply quiet_trans; [|exact Q].
      eapply quiet_trans; [|apply quiet_memcpy_P].
      apply quiet_log. reflexivity.
Qed.

Lemma cells_shifted_end n : forall ty bYOff tx d bXOff m,
  exists tx' m',
    cells_shifted ucFont n ty bYOff tx d bXOff m =
      (tx',
       match n with O => d | S k => d + (8 - bXOff) + 8 * Z.of_nat k end,
       match n with O => bXOff | S _ => 0 end,
       m') /\
    quiet m m'.
Proof.
  induction n as [|n IH]; intros ty bYOff tx d bXOff m.
  - exists tx, m. split; [reflexivity|apply quiet_refl].
  - simpl cells_shifted.
    match goal with
    | |- context [cells_shifted ucFont n ty bYOff ?tx1 ?d1 0 ?m1] =>
        destruct (IH ty bYOff tx1 d1 0 m1) as (tx' & m' & E & Q)
    end.
    exists tx', m'. rewrite E. split.
    + destruct n; f_equal; f_equal; f_equal; lia.
    + eapply quiet_trans; [|exact Q].
      eapply quiet_trans; [|apply quiet_DrawShiftedChar].
      eapply quiet_trans; [|apply quiet_log; reflexivity].
      apply quiet_log. reflexivity.
Qed.

(** One row: the partial-character branch is entered exactly when the
    horizontal offset is not zero, and the offset survives the row. *)
Lemma row_copied_end ty tx bXOff m :
  0 <= bXOff < 256 ->
  exists m',
    row_copied ucFont ty tx bXOff m = (bXOff, m') /\
    same_globals m m' /\
    partial_entries m' =
      (partial_entries m + (if (bXOff =? 0)%Z then 0 else 1))%nat.
Proof.
  intros Hb. unfold row_copied.
  destruct (cells_copied_end 16 ty tx 0 bXOff m) as (tx' & m1 & E & G & P).
  rewrite E. replace (0 + (8 - bXOff) + 8 * Z.of_nat 15) with (128 - bXOff) by lia.
  unfold SCREEN_WIDTH. destruct (Z.eqb_spec bXOff 0) as [->|Hne].
  - simpl. exists m1. rewrite Nat.add_0_r. auto.
  - replace (128 - bXOff =? 128) with false by (symmetry; apply Z.eqb_neq; lia).
    simpl negb. cbv iota.
    replace (128 - (128 - bXOff)) with bXOff by lia.
    rewrite (to_byte_small bXOff) by exact Hb.
    eexists. split; [reflexivity|].
    match goal with
    | |- context [memcpy_P ucFont ?d ?s ?n ?m0] =>
        destruct (quiet_memcpy_P d s n m0) as [G2 P2]
    end.
    split.
    + eapply same_globals_trans; [exact G|].
      eapply same_globals_trans; [|exact G2]. repeat split.
    + rewrite P2, !partial_entries_log, P. simpl. lia.
Qed.

Lemma row_shifted_end ty bYOff tx bXOff m :
  0 <= bXOff < 256 ->
  exists m',
    row_shifted ucFont ty bYOff tx bXOff m = (bXOff, m') /\
    same_globals m m' /\
    partial_entries m' =
      (partial_entries m + (if (bXOff =? 0)%Z then 0 else 1))%nat.
Proof.
  intros Hb. unfold row_shifted.
  destruct (cells_shifted_end 16 ty bYOff tx 0 bXOff m) as (tx' & m1 & E & G & P).
  rewrite E. replace (0 + (8 - bXOff) + 8 * Z.of_nat 15) with (128 - bXOff) by lia.
  unfold SCREEN_WIDTH. destruct (Z.eqb_spec bXOff 0) as [->|Hne].
  - simpl. exists m1. rewrite Nat.add_0_r. auto.
  - replace (128 - bXOff =? 128) with false by (symmetry; apply Z.eqb_neq; lia).
    simpl negb. cbv iota.
    replace (128 - (128 - bXOff)) with bXOff by lia.
    rewrite (to_byte_small bXOff) by exact Hb.
    eexists. split; [reflexivity|].
    match goal with
    | |- context [DrawShiftedChar ucFont ?s1 ?s2 ?d ?bx ?by0 ?m0] =>
        destruct (quiet_DrawShiftedChar s1 s2 d bx by0 m0) as [G2 P2]
    end.
    split.
    + eapply same_globals_trans; [exact G|].
      eapply same_globals_trans; [|exact G2]. repeat split.
    + rewrite P2, !partial_entries_log, P. simpl. lia.
Qed.

Lemma draw_page_end bScrollX bYOff pg ty bXOff m :
  0 <= bXOff < 256 ->
  exists m',
    draw_page ucFont ucSprites ucBigSprites numberOfSprites
              bScrollX bYOff pg ty bXOff m =
      (to_byte (wrap_ty ty + 1), bXOff, m') /\
    same_globals m m' /\
    partial_entries m' =
      (partial_entries m + (if (bXOff =? 0)%Z then 0 else 1))%nat.
Proof.
  intros Hb. unfold draw_page.
  assert (R : exists m1,
             (if negb (bYOff =? 0)
              then row_shifted ucFont (wrap_ty ty) bYOff (Z.shiftr bScrollX 3) bXOff (clear_row m)
              else row_copied ucFont (wrap_ty ty) (Z.shiftr bScrollX 3) bXOff (clear_row m))
             = (bXOff, m1) /\
             same_globals m m1 /\
             partial_entries m1 =
               (partial_entries m + (if (bXOff =? 0)%Z then 0 else 1))%nat).
  { destruct (negb (bYOff =? 0)).
    - destruct (row_shifted_end (wrap_ty ty) bYOff (Z.shiftr bScrollX 3) bXOff
                  (clear_row m) Hb) as (m1 & E & G & P).
      exists m1. split; [exact E|]. split; [|exact P].
      eapply same_globals_trans; [|exact G]. repeat split.
    - destruct (row_copied_end (wrap_ty ty) (Z.shiftr bScrollX 3) bXOff
                  (clear_row m) Hb) as (m1 & E & G & P).
      exists m1. split; [exact E|]. split; [|exact P].
      eapply same_globals_trans; [|exact G]. repeat split. }
  destruct R as (m1 & E & G & P). rewrite E.
  eexists. split; [reflexivity|].
  match goal with
  | |- context [send_row pg ?m0] => destruct (quiet_send_row pg m0) as [G3 P3]
  end.
  match goal with
  | |- context [DrawSprites ucSprites ucBigSprites ?y0 ?n ?m0] =>
      destruct (quiet_DrawSprites y0 n m0) as [G2 P2]
  end.
  split.
  - eapply same_globals_trans; [exact G|].
    eapply same_globals_trans; [exact G2|exact G3].
  - rewrite P3, P2, P. reflexivity.
Qed.

Lemma draw_pages_end bScrollX bYOff n : forall pg ty bXOff m,
  0 <= bXOff < 256 ->
  let m' := draw_pages ucFont ucSprites ucBigSprites numberOfSprites
                       n bScrollX bYOff pg ty bXOff m in
  same_globals m m' /\
  partial_entries m' =
    (partial_entries m + n * (if (bXOff =? 0)%Z then 0 else 1))%nat.
Proof.
  induction n as [|n IH]; intros pg ty bXOff m Hb; simpl.
  - split; [apply same_globals_refl|lia].
  - destruct (draw_page_end bScrollX bYOff pg ty bXOff m Hb) as (m1 & E & G & P).
    rewrite E.
    destruct (IH (pg + 1) (to_byte (wrap_ty ty + 1)) bXOff m1 Hb) as [G' P'].
    split.
    + eapply same_globals_trans; eassumption.
    + rewrite P', P. lia.
Qed.

End Pages.

(** ** The scrolling sketch *)

Lemma adjust_loop_frame (tileMap : Z -> Z -> Z) n : forall x1 d1 d2 r1 r2 m,
  let m' := Scroller.adjust_loop tileMap n x1 d1 d2 r1 r2 m in
  bTemp m' = bTemp m /\ object_list m' = object_list m /\
  iScrollX m' = iScrollX m /\ iScrollY m' = iScrollY m /\ trace m' = trace m.
Proof.
  induction n as [|n IH]; intros x1 d1 d2 r1 r2 m; simpl; [tauto|].
  match goal with
  | |- context [Scroller.adjust_loop tileMap n ?a ?b ?c ?d ?e ?m0] =>
      destruct (IH a b c d e m0) as (A & B & C & D & E)
  end.
  rewrite A, B, C, D, E. simpl. tauto.
Qed.

Lemma adjustPlayField_frame (tileMap : Z -> Z -> Z) m :
  let m' := Scroller.adjustPlayField tileMap m in
  bTemp m' = bTemp m /\ object_list m' = object_list m /\
  iScrollX m' = iScrollX m /\ iScrollY m' = iScrollY m /\ trace m' = trace m.
Proof. unfold Scroller.adjustPlayField. apply adjust_loop_frame. Qed.

Section ScrollerPages.

Variable ucTiles : Z -> Z.
Variable tileMap : Z -> Z -> Z.

Lemma scroller_cells_copied_end n : forall ty tx d bXOff m,
  exists tx' m',
    Scroller.cells_copied ucTiles n ty tx d bXOff m =
      (tx',
       match n with O => d | S k => d + (8 - bXOff) + 8 * Z.of_nat k end,
       match n with O => bXOff | S _ => 0 end,
       m') /\
    quiet m m'.
Proof.
  induction n as [|n IH]; intros ty tx d bXOff m.
  - exists tx, m. split; [reflexivity|apply quiet_refl].
  - simpl Scroller.cells_copied.
    match goal with
    | |- context [Scroller.cells_copied ucTiles n ty ?tx1 ?d1 0 ?m1] =>
        destruct (IH ty tx1 d1 0 m1) as (tx' & m' & E & Q)
    end.
    exists tx', m'. rewrite E. split.
    + unfold Scroller.MODULE. destruct n; f_equal; f_equal; f_equal; lia.
    + eapply quiet_trans; [|exact Q].
      eapply quiet_trans; [|apply quiet_memcpy_P].
      apply quiet_log. reflexivity.
Qed.

Lemma scroller_cells_shifted_end n : forall ty bYOff tx d bXOff m,
  exists tx' m',
    Scroller.cells_shifted ucTiles n ty bYOff tx d bXOff m =
      (tx',
       match n with O => d | S k => d + (8 - bXOff) + 8 * Z.of_nat k end,
       match n with O => bXOff | S _ => 0 end,
       m') /\
    quiet m m'.
Proof.
  induction n as [|n IH]; intros ty bYOff tx d bXOff m.
  - exists tx, m. split; [reflexivity|apply quiet_refl].
  - simpl Scroller.cells_shifted.
    match goal with
    | |- context [Scroller.cells_shifted ucTiles n ty bYOff ?tx1 ?d1 0 ?m1] =>
        destruct (IH ty bYOff tx1 d1 0 m1) as (tx' & m' & E & Q)
    end.
    exists tx', m'. rewrite E. split.
    + unfold Scroller.MODULE. destruct n; f_equal; f_equal; f_equal; lia.
    + eapply quiet_trans; [|exact Q].
      eapply quiet_trans; [|apply quiet_DrawShiftedChar].
      eapply quiet_trans; [|apply quiet_log; reflexivity].
      apply quiet_log. reflexivity.
Qed.

Lemma scroller_draw_pages_quiet bScrollX bYOff n : forall pg ty bXOff m,
  quiet m (Scroller.draw_pages ucTiles n bScrollX bYOff pg ty bXOff m).
Proof.
  induction n as [|n IH]; intros pg ty bXOff m; simpl.
  - apply quiet_refl.
  - unfold Scroller.draw_page.
    set (tx := to_byte (Z.shiftr bScrollX 3 + Scroller.EDGES / 2)).
    assert (R : exists tx' d' bx' m1,
               (if negb (bYOff =? 0)
                then Scroller.cells_shifted ucTiles 16 (Scroller.wrap_rows ty) bYOff
                                            tx 0 bXOff (clear_row m)
                else Scroller.cells_copied ucTiles 16 (Scroller.wrap_rows ty)
                                           tx 0 bXOff (clear_row m))
               = (tx', d', bx', m1) /\ quiet m m1).
    { destruct (negb (bYOff =? 0)).
      - destruct (scroller_cells_shifted_end 16 (Scroller.wrap_rows ty) bYOff tx 0
                    bXOff (clear_row m)) as (tx' & m1 & E & Q).
        do 4 eexists. split; [exact E|].
        eapply quiet_trans; [apply quiet_clear_row|exact Q].
      - destruct (scroller_cells_copied_end 16 (Scroller.wrap_rows ty) tx 0
                    bXOff (clear_row m)) as (tx' & m1 & E & Q).
        do 4 eexists. split; [exact E|].
        eapply quiet_trans; [apply quiet_clear_row|exact Q]. }
    destruct R as (tx' & d' & bx' & m1 & E & Q). rewrite E.
    eapply quiet_trans; [|apply IH].
    eapply quiet_trans; [exact Q|apply quiet_send_row].
Qed.

End ScrollerPages.

Lemma land_7_mod z : Z.land z 7 = z mod 8.
Proof. change 7 with (Z.ones 3). rewrite Z.land_ones by lia. reflexivity. Qed.

(** ** Shared inputs *)

(** C8 as stated fails for the scrolling sketch: its [DrawPlayfield]
    rewrites the playfield. *)
Lemma playfield_mutated_counterexample :
  bPlayfield (Scroller.draw_frame Scroller.ucTiles Scroller.tileMap
                                  Scroller.scrolled_one_row)
  <> bPlayfield Scroller.scrolled_one_row.
Proof. vm_compute. discriminate. Qed.

(** The two rows [adjustPlayField] refreshes: their first cells and their
    tile-map rows. *)
Lemma adjust_rows cur :
  0 <= cur ->
  Z.rem ((cur + 64 / Scroller.MODULE) * Scroller.PLAYFIELD_COLS)
        (Scroller.PLAYFIELD_ROWS * Scroller.PLAYFIELD_COLS) = (cur + 8) mod 10 * 18 /\
  Z.rem (cur * Scroller.PLAYFIELD_COLS)
        (Scroller.PLAYFIELD_ROWS * Scroller.PLAYFIELD_COLS) = cur mod 10 * 18 /\
  Z.rem (cur + 64 / Scroller.MODULE) Scroller.TILEMAP_HEIGHT = (cur + 8) mod 29 /\
  Z.rem cur Scroller.TILEMAP_HEIGHT = cur mod 29.
Proof.
  intros H. change Scroller.PLAYFIELD_COLS with 18.
  change Scroller.PLAYFIELD_ROWS with 10. change Scroller.TILEMAP_HEIGHT with 29.
  change (64 / Scroller.MODULE) with 8.
  rewrite !Z.rem_mod_nonneg by lia.
  repeat split; Z.div_mod_to_equations; lia.
Qed.

Section Refresh.

Variable tileMap : Z -> Z -> Z.

Lemma adjust_loop_S n x1 d1 d2 r1 r2 m :
  Scroller.adjust_loop tileMap (S n) x1 d1 d2 r1 r2 m =
  Scroller.adjust_loop tileMap n (x1 + 1) d1 d2 r1 r2
    (Scroller.set_playfield (d2 + x1) (pgm_read_byte (tileMap r2) x1)
       (Scroller.set_playfield (d1 + x1) (pgm_read_byte (tileMap r1) x1) m)).
Proof. reflexivity. Qed.

Lemma adjust_loop_length n : forall x1 d1 d2 r1 r2 m,
  length (bPlayfield (Scroller.adjust_loop tileMap n x1 d1 d2 r1 r2 m)) =
  length (bPlayfield m).
Proof.
  induction n as [|n IH]; intros x1 d1 d2 r1 r2 m; [reflexivity|].
  rewrite adjust_loop_S, IH. simpl. now rewrite !length_insert.
Qed.

(** A cell the loop does not store to keeps its tile. *)
Lemma adjust_loop_out n : forall x1 d1 d2 r1 r2 m (i : nat),
  (forall k, x1 <= k < x1 + Z.of_nat n ->
     i <> Z.to_nat (d1 + k) /\ i <> Z.to_nat (d2 + k)) ->
  bPlayfield (Scroller.adjust_loop tileMap n x1 d1 d2 r1 r2 m) !! i =
  bPlayfield m !! i.
Proof.
  induction n as [|n IH]; intros x1 d1 d2 r1 r2 m i Hi; [reflexivity|].
  rewrite adjust_loop_S, IH by (intros k Hk; apply Hi; lia).
  destruct (Hi x1 ltac:(lia)) as [H1 H2]. simpl.
  rewrite list_lookup_insert_ne by auto. apply list_lookup_insert_ne. auto.
Qed.

(** The cells it stores to hold the tiles of the two map rows. *)
Lemma adjust_loop_in n : forall x1 d1 d2 r1 r2 m k,
  0 <= d1 -> 0 <= d2 -> 0 <= x1 ->
  d1 + 18 <= d2 \/ d2 + 18 <= d1 ->
  x1 + Z.of_nat n <= 18 ->
  d1 + 18 <= Z.of_nat (length (bPlayfield m)) ->
  d2 + 18 <= Z.of_nat (length (bPlayfield m)) ->
  x1 <= k < x1 + Z.of_nat n ->
  let pf := bPlayfield (Scroller.adjust_loop tileMap n x1 d1 d2 r1 r2 m) in
  pf !! Z.to_nat (d1 + k) = Some (pgm_read_byte (tileMap r1) k) /\
  pf !! Z.to_nat (d2 + k) = Some (pgm_read_byte (tileMap r2) k).
Proof.
  induction n as [|n IH]; intros x1 d1 d2 r1 r2 m k H1 H2 Hx Hd Hn L1 L2 Hk; [lia|].
  cbv zeta. rewrite adjust_loop_S. destruct (Z.eq_dec k x1) as [->|Hne].
  - rewrite !adjust_loop_out by (intros k Hk'; lia). simpl. split.
    + rewrite list_lookup_insert_ne by lia. apply list_lookup_insert_eq. lia.
    + apply list_lookup_insert_eq. rewrite length_insert. lia.
  - apply IH; try lia; simpl; rewrite !length_insert; lia.
Qed.

(** The playfield after [adjustPlayField], cell by cell. *)
Lemma adjustPlayField_cells (m : machine) :
  let cur := to_byte (Z.shiftr (iScrollY m) 3 + 1) in
  let pf := bPlayfield (Scroller.adjustPlayField tileMap m) in
  (length (bPlayfield m) = 180%nat ->
   forall k, 0 <= k < 18 ->
     pf !! Z.to_nat ((cur + 8) mod 10 * 18 + k) =
       Some (pgm_read_byte (tileMap ((cur + 8) mod 29)) k) /\
     pf !! Z.to_nat (cur mod 10 * 18 + k) =
       Some (pgm_read_byte (tileMap (cur mod 29)) k))
  /\ (forall i : nat,
        Z.of_nat i / 18 <> (cur + 8) mod 10 -> Z.of_nat i / 18 <> cur mod 10 ->
        pf !! i = bPlayfield m !! i)
  /\ length pf = length (bPlayfield m).
Proof.
  intros cur pf.
  pose proof (to_byte_range (Z.shiftr (iScrollY m) 3 + 1)) as Hc. fold cur in Hc.
  destruct (adjust_rows cur ltac:(lia)) as (E1 & E2 & E3 & E4).
  assert (Epf : pf = bPlayfield (Scroller.adjust_loop tileMap 18 0
                                   ((cur + 8) mod 10 * 18) (cur mod 10 * 18)
                                   ((cur + 8) mod 29) (cur mod 29) m)).
  { unfold pf, Scroller.adjustPlayField.
    change (Z.shiftr (iScrollY m) 3 + Scroller.EDGES / 2)
      with (Z.shiftr (iScrollY m) 3 + 1).
    fold cur. cbv zeta. rewrite E1, E2, E3, E4. reflexivity. }
  split; [|split].
  - intros Hlen k Hk. rewrite Epf.
    apply adjust_loop_in; try lia; try rewrite Hlen;
      Z.div_mod_to_equations; lia.
  - intros i H1 H2. rewrite Epf. apply adjust_loop_out.
    intros k Hk. Z.div_mod_to_equations. lia.
  - rewrite Epf. apply adjust_loop_length.
Qed.

End Refresh.

(** C8, amended.  [DrawSprites] leaves every sprite, the playfield and the
    scroll position as they were, and so does the [DrawPlayfield] of the
    sprite demo.  The [DrawPlayfield] of the scrolling sketch leaves the
    sprites and the scroll position as they were; its playfield is the one
    [adjustPlayField] produces at its start.  With [cur] the tile row of
    the scroll plus one (as a byte), that playfield holds tile-map row
    [(cur + 8) mod 29] in its row [(cur + 8) mod 10] and tile-map row
    [cur mod 29] in its row [cur mod 10]; every cell of the other eight
    rows is as it was. *)
Theorem renderer_shared_inputs
        (ucFont ucSprites ucBigSprites ucTiles : Z -> Z) (tileMap : Z -> Z -> Z)
        (numberOfSprites y0 bCount bScrollX bScrollY : Z) (m : machine) :
  same_globals m (DrawSprites ucSprites ucBigSprites y0 bCount m)
  /\ same_globals m (DrawPlayfield ucFont ucSprites ucBigSprites numberOfSprites
                                   bScrollX bScrollY m)
  /\ (let m' := Scroller.DrawPlayfield ucTiles tileMap bScrollX bScrollY m in
      let cur := to_byte (Z.shiftr (iScrollY m) 3 + 1) in
      object_list m' = object_list m /\
      iScrollX m' = iScrollX m /\ iScrollY m' = iScrollY m /\
      bPlayfield m' = bPlayfield (Scroller.adjustPlayField tileMap m) /\
      length (bPlayfield m') = length (bPlayfield m) /\
      (forall i : nat,
         Z.of_nat i / 18 <> (cur + 8) mod 10 -> Z.of_nat i / 18 <> cur mod 10 ->
         bPlayfield m' !! i = bPlayfield m !! i) /\
      (length (bPlayfield m) = 180%nat ->
       row_holds tileMap (bPlayfield m') ((cur + 8) mod 10) ((cur + 8) mod 29) /\
       row_holds tileMap (bPlayfield m') (cur mod 10) (cur mod 29))).
Proof.
  split; [apply quiet_DrawSprites|]. split.
  - unfold DrawPlayfield. apply draw_pages_end.
    rewrite land_7_mod. pose proof (Z.mod_pos_bound bScrollX 8). lia.
  - intros m' cur.
    destruct (adjustPlayField_frame tileMap m) as (_ & B & C & D & _).
    destruct (scroller_draw_pages_quiet ucTiles bScrollX
                (Z.land bScrollY (Scroller.MODULE - 1)) 8 0
                (Z.shiftr bScrollY 3 + Scroller.EDGES / 2)
                (Z.land bScrollX (Scroller.MODULE - 1))
                (Scroller.adjustPlayField tileMap m)) as [(A' & B' & C' & D') _].
    fold (Scroller.DrawPlayfield ucTiles tileMap bScrollX bScrollY m) in *.
    fold m' in A', B', C', D'.
    destruct (adjustPlayField_cells tileMap m) as (In2 & Out & Len).
    cbv zeta in In2, Out, Len. fold cur in In2, Out.
    split; [congruence|]. split; [congruence|]. split; [congruence|].
    split; [exact A'|]. rewrite A'.
    split; [exact Len|]. split; [exact Out|].
    intros Hlen. split; intros k Hk; apply (In2 Hlen k Hk).
Qed.

(** In the state of the counterexample the refresh puts tile-map row 10
    into playfield row 0 and tile-map row 2 into playfield row 2. *)
Lemma renderer_shared_inputs_witness :
  row_holds Scroller.tileMap
    (bPlayfield (Scroller.DrawPlayfield Scroller.ucTiles Scroller.tileMap 0 8
                                        Scroller.scrolled_one_row)) 0 10
  /\ row_holds Scroller.tileMap
    (bPlayfield (Scroller.DrawPlayfield Scroller.ucTiles Scroller.tileMap 0 8
                                        Scroller.scrolled_one_row)) 2 2.
Proof.
  destruct (renderer_shared_inputs Scroller.ucTiles Scroller.ucTiles
              Scroller.ucTiles Scroller.ucTiles Scroller.tileMap
              0 0 0 0 8 Scroller.scrolled_one_row) as (_ & _ & H).
  cbv zeta in H. destruct H as (_ & _ & _ & _ & _ & _ & H).
  exact (H eq_refl).
Defined.

(** ** The partial character *)

Lemma stores_length vs : forall d m,
  length (bTemp (stores d vs m)) = length (bTemp m).
Proof.
  induction vs as [|v vs IH]; intros d m; simpl; [reflexivity|].
  rewrite IH. simpl. apply length_insert.
Qed.

Lemma wrap_tx_mod tx : 0 <= tx < 36 -> wrap_tx tx = tx mod 18.
Proof.
  intros H. unfold wrap_tx. destruct (Z.geb_spec tx 18);
    Z.div_mod_to_equations; lia.
Qed.

Lemma wrap_tx_range tx : 0 <= tx < 36 -> 0 <= wrap_tx tx < 18.
Proof. intros H. unfold wrap_tx. destruct (Z.geb_spec tx 18); lia. Qed.

Lemma playfield_at_same m m' i :
  bPlayfield m' = bPlayfield m -> playfield_at m' i = playfield_at m i.
Proof. intros H. unfold playfield_at. now rewrite H. Qed.

Lemma next_tx_range tx : 0 <= tx < 36 -> 0 <= to_byte (wrap_tx tx + 1) < 36.
Proof.
  intros H. pose proof (wrap_tx_range tx H). rewrite to_byte_small; lia.
Qed.

Section Cells.

Variable ucFont : Z -> Z.

Lemma memcpy_P_length d s n m :
  length (bTemp (memcpy_P ucFont d s n m)) = length (bTemp m).
Proof. unfold memcpy_P. rewrite memcpy_P_loop_stores. apply stores_length. Qed.

Lemma DrawShiftedChar_length s1 s2 d bXOff bYOff m :
  length (bTemp (DrawShiftedChar ucFont s1 s2 d bXOff bYOff m)) = length (bTemp m).
Proof.
  unfold DrawShiftedChar. rewrite DrawShiftedChar_loop_stores. apply stores_length.
Qed.

(** The column the cell loops stand at after [n] cells. *)
Lemma cells_copied_tx n : forall ty tx d bXOff m,
  0 <= tx < 36 ->
  let r := cells_copied ucFont n ty tx d bXOff m in
  0 <= fst (fst (fst r)) < 36 /\
  wrap_tx (fst (fst (fst r))) = (tx + Z.of_nat n) mod 18 /\
  length (bTemp (snd r)) = length (bTemp m).
Proof.
  induction n as [|n IH]; intros ty tx d bXOff m Htx.
  - simpl. rewrite Z.add_0_r. split; [exact Htx|]. split; [now apply wrap_tx_mod|reflexivity].
  - simpl cells_copied. cbv zeta.
    pose proof (wrap_tx_range tx Htx) as Hw.
    pose proof (wrap_tx_mod tx Htx) as Hm.
    match goal with
    | |- context [cells_copied ucFont n ty ?tx1 ?d1 0 ?m1] =>
        destruct (IH ty tx1 d1 0 m1 (next_tx_range tx Htx)) as (R & W & L)
    end.
    split; [exact R|]. split.
    + rewrite W, to_byte_small by lia. rewrite Hm.
      Z.div_mod_to_equations. lia.
    + rewrite L, memcpy_P_length. reflexivity.
Qed.

Lemma cells_shifted_tx n : forall ty bYOff tx d bXOff m,
  0 <= tx < 36 ->
  let r := cells_shifted ucFont n ty bYOff tx d bXOff m in
  0 <= fst (fst (fst r)) < 36 /\
  wrap_tx (fst (fst (fst r))) = (tx + Z.of_nat n) mod 18 /\
  length (bTemp (snd r)) = length (bTemp m).
Proof.
  induction n as [|n IH]; intros ty bYOff tx d bXOff m Htx.
  - simpl. rewrite Z.add_0_r. split; [exact Htx|]. split; [now apply wrap_tx_mod|reflexivity].
  - simpl cells_shifted. cbv zeta.
    pose proof (wrap_tx_range tx Htx) as Hw.
    pose proof (wrap_tx_mod tx Htx) as Hm.
    match goal with
    | |- context [cells_shifted ucFont n ty bYOff ?tx1 ?d1 0 ?m1] =>
        destruct (IH ty bYOff tx1 d1 0 m1 (next_tx_range tx Htx)) as (R & W & L)
    end.
    split; [exact R|]. split.
    + rewrite W, to_byte_small by lia. rewrite Hm.
      Z.div_mod_to_equations. lia.
    + rewrite L, DrawShiftedChar_length. reflexivity.
Qed.

(** With a horizontal offset the copy path finishes the row with the first
    [bXOff] bytes of the seventeenth tile, and hands [bXOff] on. *)
Lemma row_copied_partial ty tx bXOff m :
  0 < bXOff < 8 -> 0 <= tx < 36 -> length (bTemp m) = 128%nat ->
  let cells := snd (cells_copied ucFont 16 ty tx 0 bXOff m) in
  let r := row_copied ucFont ty tx bXOff m in
  let c := playfield_at m ((tx + 16) mod 18 + ty * 18) in
  fst r = bXOff /\
  (forall k, 0 <= k < bXOff ->
     peek (snd r) (128 - bXOff + k) = pgm_read_byte ucFont (c * 8 + k)) /\
  (forall j, 0 <= j < 128 - bXOff -> peek (snd r) j = peek cells j).
Proof.
  intros Hb Htx Hlen cells r c. unfold r, cells, row_copied.
  destruct (cells_copied_tx 16 ty tx 0 bXOff m Htx) as (_ & W & L).
  destruct (cells_copied_end ucFont 16 ty tx 0 bXOff m) as (tx' & m1 & E & G & _).
  rewrite E in *. simpl fst in W. simpl snd in L. simpl snd.
  replace (0 + (8 - bXOff) + 8 * Z.of_nat 15) with (128 - bXOff) by lia.
  unfold SCREEN_WIDTH.
  replace (128 - bXOff =? 128) with false by (symmetry; apply Z.eqb_neq; lia).
  simpl negb. cbv iota.
  replace (128 - (128 - bXOff)) with bXOff by lia.
  rewrite (to_byte_small bXOff) by lia. rewrite W.
  change (Z.of_nat 16) with 16.
  rewrite (playfield_at_same m) by (simpl; apply G).
  fold c. unfold memcpy_P. rewrite memcpy_P_loop_stores.
  cbn [fst snd]. split; [reflexivity|]. split.
  - intros k Hk. unfold peek.
    replace (Z.to_nat (128 - bXOff + k))
      with (Z.to_nat (128 - bXOff) + Z.to_nat k)%nat by lia.
    erewrite stores_lookup_in; [reflexivity|lia| |].
    + rewrite run_of_lookup by lia. rewrite Z2Nat.id by lia. reflexivity.
    + rewrite run_of_length. simpl. rewrite L, Hlen. lia.
  - intros j Hj. unfold peek.
    rewrite stores_lookup_out by lia. reflexivity.
Qed.

(** The shift path does the same with the tile and the tile below it. *)
Lemma row_shifted_partial ty bYOff tx bXOff m :
  0 < bXOff < 8 -> 0 <= tx < 36 -> length (bTemp m) = 128%nat ->
  let cells := snd (cells_shifted ucFont 16 ty bYOff tx 0 bXOff m) in
  let r := row_shifted ucFont ty bYOff tx bXOff m in
  let i := (tx + 16) mod 18 + ty * 18 in
  let c := playfield_at m i in
  let c2 := playfield_at m (next_line i) in
  fst r = bXOff /\
  (forall k, 0 <= k < bXOff ->
     peek (snd r) (128 - bXOff + k) =
     shifted_byte (pgm_read_byte ucFont (c * 8 + k))
                  (pgm_read_byte ucFont (c2 * 8 + k)) bYOff) /\
  (forall j, 0 <= j < 128 - bXOff -> peek (snd r) j = peek cells j).
Proof.
  intros Hb Htx Hlen cells r i c c2. unfold r, cells, row_shifted.
  destruct (cells_shifted_tx 16 ty bYOff tx 0 bXOff m Htx) as (_ & W & L).
  destruct (cells_shifted_end ucFont 16 ty bYOff tx 0 bXOff m) as (tx' & m1 & E & G & _).
  rewrite E in *. simpl fst in W. simpl snd in L. simpl snd.
  replace (0 + (8 - bXOff) + 8 * Z.of_nat 15) with (128 - bXOff) by lia.
  unfold SCREEN_WIDTH.
  replace (128 - bXOff =? 128) with false by (symmetry; apply Z.eqb_neq; lia).
  simpl negb. cbv iota.
  replace (128 - (128 - bXOff)) with bXOff by lia.
  rewrite (to_byte_small bXOff) by lia. rewrite W.
  change (Z.of_nat 16) with 16. fold i.
  rewrite (playfield_at_same m (log (EvLoad i) (log EvPartial m1))),
    (playfield_at_same m (log (EvLoad (next_line i))
                            (log (EvLoad i) (log EvPartial m1))))
    by (simpl; apply G).
  fold c c2. unfold DrawShiftedChar. rewrite DrawShiftedChar_loop_stores.
  rewrite (to_byte_small (8 - bXOff)) by lia.
  replace (8 - (8 - bXOff)) with bXOff by lia.
  cbn [fst snd]. split; [reflexivity|]. split.
  - intros k Hk. unfold peek.
    replace (Z.to_nat (128 - bXOff + k))
      with (Z.to_nat (128 - bXOff) + Z.to_nat k)%nat by lia.
    erewrite stores_lookup_in; [reflexivity|lia| |].
    + rewrite run_of_lookup by lia. rewrite Z2Nat.id by lia. reflexivity.
    + rewrite run_of_length. simpl. rewrite L, Hlen. lia.
  - intros j Hj. unfold peek.
    rewrite stores_lookup_out by lia. reflexivity.
Qed.

(** Without a horizontal offset a row is its sixteen cells. *)
Lemma row_copied_whole ty tx m :
  row_copied ucFont ty tx 0 m = (0, snd (cells_copied ucFont 16 ty tx 0 0 m)).
Proof.
  unfold row_copied.
  destruct (cells_copied_end ucFont 16 ty tx 0 0 m) as (tx' & m1 & E & _).
  rewrite E. reflexivity.
Qed.

Lemma row_shifted_whole ty bYOff tx m :
  row_shifted ucFont ty bYOff tx 0 m =
  (0, snd (cells_shifted ucFont 16 ty bYOff tx 0 0 m)).
Proof.
  unfold row_shifted.
  destruct (cells_shifted_end ucFont 16 ty bYOff tx 0 0 m) as (tx' & m1 & E & _).
  rewrite E. reflexivity.
Qed.

End Cells.




(** ** The copy path and the shift by zero *)

Lemma same_memory_refl m : same_memory m m.
Proof. split; [reflexivity|apply same_globals_refl]. Qed.

Lemma same_memory_stores vs : forall d m1 m2,
  same_memory m1 m2 -> same_memory (stores d vs m1) (stores d vs m2).
Proof.
  induction vs as [|v vs IH]; intros d m1 m2 H; simpl; [exact H|].
  apply IH. destruct H as (B & G). split; [simpl; now rewrite B|exact G].
Qed.

Lemma to_byte_shiftl_8 c : to_byte (Z.shiftl c 8) = 0.
Proof.
  unfold to_byte. change 255 with (Z.ones 8).
  rewrite Z.land_ones, Z.shiftl_mul_pow2 by lia. apply Z.mod_mul. lia.
Qed.

Lemma shifted_byte_0 c c2 : 0 <= c < 256 -> shifted_byte c c2 0 = c.
Proof.
  intros Hc. unfold shifted_byte. rewrite Z.shiftr_0_r, Z.sub_0_r.
  rewrite to_byte_shiftl_8, Z.lor_0_r. now apply to_byte_small.
Qed.

Section CopyPath.

Variable ucFont : Z -> Z.

(** With a vertical offset of zero [DrawShiftedChar] is [memcpy_P]. *)
Lemma DrawShiftedChar_0 s1 s2 d bXOff m :
  DrawShiftedChar ucFont s1 s2 d bXOff 0 m = memcpy_P ucFont d s1 (8 - bXOff) m.
Proof.
  unfold DrawShiftedChar, memcpy_P.
  rewrite DrawShiftedChar_loop_stores, memcpy_P_loop_stores. f_equal.
  apply run_of_ext. intros k _. apply shifted_byte_0. apply pgm_read_byte_range.
Qed.

Lemma same_memory_memcpy_P d s n m1 m2 :
  same_memory m1 m2 ->
  same_memory (memcpy_P ucFont d s n m1) (memcpy_P ucFont d s n m2).
Proof.
  intros H. unfold memcpy_P. rewrite !memcpy_P_loop_stores.
  now apply same_memory_stores.
Qed.

Lemma cells_shift_by_zero n : forall ty tx d bXOff m1 m2,
  same_memory m1 m2 ->
  exists tx' d' bx' m1' m2',
    cells_copied ucFont n ty tx d bXOff m1 = (tx', d', bx', m1') /\
    cells_shifted ucFont n ty 0 tx d bXOff m2 = (tx', d', bx', m2') /\
    same_memory m1' m2'.
Proof.
  induction n as [|n IH]; intros ty tx d bXOff m1 m2 H.
  - exists tx, d, bXOff, m1, m2. auto.
  - simpl cells_copied. simpl cells_shifted. rewrite DrawShiftedChar_0.
    apply IH.
    match goal with
    | |- same_memory (memcpy_P _ _ ?sa _ _) (memcpy_P _ _ ?sb _ _) =>
        replace sb with sa
    end.
    + apply same_memory_memcpy_P. exact H.
    + f_equal. f_equal. unfold playfield_at, log. simpl.
      destruct H as (_ & E & _). now rewrite E.
Qed.

End CopyPath.

(** C6.  With a vertical offset of zero the copy path of [DrawPlayfield]
    fills the row buffer exactly as the shifted path run with [bYOff = 0]
    on the same tiles does, and hands on the same [bXOff]; cell by cell,
    [DrawShiftedChar] with [bYOff = 0] is the [memcpy_P] of its first
    source. *)
Theorem copy_path_is_shift_by_zero (ucFont : Z -> Z) (ty tx bXOff : Z) (m : machine) :
  0 <= bXOff <= 7 ->
  let copied := row_copied ucFont ty tx bXOff m in
  let shifted := row_shifted ucFont ty 0 tx bXOff m in
  bTemp (snd copied) = bTemp (snd shifted)
  /\ fst copied = fst shifted
  /\ same_memory (snd copied) (snd shifted)
  /\ (forall s1 s2 d bx m0,
        DrawShiftedChar ucFont s1 s2 d bx 0 m0 = memcpy_P ucFont d s1 (8 - bx) m0).
Proof.
  intros Hb copied shifted.
  assert (R : fst copied = fst shifted /\ same_memory (snd copied) (snd shifted)).
  { unfold copied, shifted, row_copied, row_shifted.
    destruct (cells_shift_by_zero ucFont 16 ty tx 0 bXOff m m (same_memory_refl m))
      as (tx' & d' & bx' & m1 & m2 & E1 & E2 & S).
    destruct (cells_copied_end ucFont 16 ty tx 0 bXOff m) as (tx'' & m1' & E1' & _).
    rewrite E1 in E1'. injection E1' as _ Hd _ _.
    rewrite E1, E2. destruct (negb (d' =? SCREEN_WIDTH)); [|split; [reflexivity|exact S]].
    simpl fst. simpl snd. split; [reflexivity|].
    rewrite DrawShiftedChar_0.
    assert (Hx : to_byte (SCREEN_WIDTH - d') = bXOff).
    { unfold SCREEN_WIDTH. rewrite Hd.
      replace (128 - (0 + (8 - bXOff) + 8 * Z.of_nat 15)) with bXOff by lia.
      apply to_byte_small. lia. }
    rewrite Hx. rewrite (to_byte_small (8 - bXOff)) by lia.
    replace (8 - (8 - bXOff)) with bXOff by lia.
    match goal with
    | |- same_memory (memcpy_P _ _ ?sa _ _) (memcpy_P _ _ ?sb _ _) =>
        replace sb with sa
    end.
    - apply same_memory_memcpy_P. exact S.
    - f_equal. unfold playfield_at, log. simpl.
      destruct S as (_ & E & _). now rewrite E. }
  destruct R as [Rx Rm]. split; [symmetry; apply Rm|].
  split; [exact Rx|]. split; [exact Rm|].
  intros. apply DrawShiftedChar_0.
Qed.

Lemma copy_path_is_shift_by_zero_witness :
  bTemp (snd (row_copied Demo.ucFont 2 1 3 Demo.setup)) =
  bTemp (snd (row_shifted Demo.ucFont 2 0 1 3 Demo.setup)).
Proof.
  exact (proj1 (copy_path_is_shift_by_zero Demo.ucFont 2 1 3 Demo.setup ltac:(lia))).
Defined.

(** ** The tile row and the playfield reads *)

Lemma loads_log_load i m : loads (log (EvLoad i) m) = loads m ++ [i].
Proof. unfold loads, log. simpl. now rewrite omap_app. Qed.

Lemma loads_log_other e m : is_load e = None -> loads (log e m) = loads m.
Proof.
  intros H. unfold loads, log. simpl. rewrite omap_app. simpl.
  rewrite H. apply app_nil_r.
Qed.

Lemma loads_poke d v m : loads (poke d v m) = loads m.
Proof. unfold loads, poke. simpl. rewrite omap_app. simpl. apply app_nil_r. Qed.

Lemma loads_stores vs : forall d m, loads (stores d vs m) = loads m.
Proof.
  induction vs as [|v vs IH]; intros d m; simpl; [reflexivity|].
  rewrite IH. apply loads_poke.
Qed.

Lemma loads_blit cell n : forall s d m, loads (blit cell n s d m) = loads m.
Proof.
  induction n as [|n IH]; intros s d m; simpl; [reflexivity|].
  destruct (cell s) as [mask cNew]. rewrite IH. apply loads_poke.
Qed.

Lemma loads_draw_object ucSprites ucBigSprites y0 o m :
  loads (draw_object ucSprites ucBigSprites y0 o m) = loads m.
Proof.
  unfold draw_object;
  repeat match goal with
         | |- context [if ?b then _ else _] => destruct b
         end; first [reflexivity | apply loads_blit].
Qed.

Lemma loads_DrawSprites ucSprites ucBigSprites y0 bCount m :
  loads (DrawSprites ucSprites ucBigSprites y0 bCount m) = loads m.
Proof.
  unfold DrawSprites. generalize 0%nat as i. revert m.
  induction (Z.to_nat bCount) as [|n IH]; intros m i; simpl; [reflexivity|].
  rewrite IH. destruct (object_list m !! i); [apply loads_draw_object|reflexivity].
Qed.

Lemma loads_DrawShiftedChar ucFont s1 s2 d bXOff bYOff m :
  loads (DrawShiftedChar ucFont s1 s2 d bXOff bYOff m) = loads m.
Proof. unfold DrawShiftedChar. rewrite DrawShiftedChar_loop_stores. apply loads_stores. Qed.

Lemma loads_memcpy_P ucFont d s n m : loads (memcpy_P ucFont d s n m) = loads m.
Proof. unfold memcpy_P. rewrite memcpy_P_loop_stores. apply loads_stores. Qed.

Lemma run_of_snoc f n :
  run_of f (S n) = run_of f n ++ [f (Z.of_nat n)].
Proof. unfold run_of. now rewrite seq_S, map_app. Qed.

Lemma flat_map_seq_S {A} (f : nat -> list A) n :
  flat_map f (seq 0 (S n)) = f 0%nat ++ flat_map (fun p => f (S p)) (seq 0 n).
Proof.
  simpl. f_equal. rewrite <- seq_shift.
  induction (seq 0 n) as [|a l IH]; simpl; [reflexivity|]. now rewrite IH.
Qed.

Lemma next_line_range i : 0 <= i < 180 -> 0 <= next_line i < 180.
Proof. intros H. unfold next_line. destruct (Z.geb_spec (i + 18) 180); lia. Qed.

Section Reads.

Variables ucFont ucSprites ucBigSprites : Z -> Z.
Variable numberOfSprites : Z.

(** The cells of a row are read from left to right, wrapping at column 18. *)
Lemma cells_copied_reads n : forall ty tx d bXOff m,
  0 <= tx < 36 ->
  loads (snd (cells_copied ucFont n ty tx d bXOff m)) =
  loads m ++ run_of (fun k => (tx + k) mod 18 + ty * 18) n.
Proof.
  induction n as [|n IH]; intros ty tx d bXOff m Htx.
  - simpl. now rewrite app_nil_r.
  - simpl cells_copied. cbv zeta.
    pose proof (wrap_tx_range tx Htx) as Hw.
    pose proof (wrap_tx_mod tx Htx) as Hm.
    rewrite IH by (now apply next_tx_range).
    rewrite loads_memcpy_P, loads_log_load, <- app_assoc. f_equal.
    rewrite run_of_S, Z.add_0_r, Hm. simpl. f_equal.
    apply run_of_ext. intros k Hk. f_equal.
    rewrite to_byte_small by lia. Z.div_mod_to_equations. lia.
Qed.

Lemma cells_shifted_reads n : forall ty bYOff tx d bXOff m,
  0 <= tx < 36 ->
  loads (snd (cells_shifted ucFont n ty bYOff tx d bXOff m)) =
  loads m ++ flat_map (fun i => [i; next_line i])
                      (run_of (fun k => (tx + k) mod 18 + ty * 18) n).
Proof.
  induction n as [|n IH]; intros ty bYOff tx d bXOff m Htx.
  - simpl. now rewrite app_nil_r.
  - simpl cells_shifted. cbv zeta.
    pose proof (wrap_tx_range tx Htx) as Hw.
    pose proof (wrap_tx_mod tx Htx) as Hm.
    rewrite IH by (now apply next_tx_range).
    rewrite loads_DrawShiftedChar, !loads_log_load, <- !app_assoc. f_equal.
    rewrite run_of_S, Z.add_0_r, Hm. simpl. do 3 f_equal.
    apply run_of_ext. intros k Hk. f_equal.
    rewrite to_byte_small by lia. Z.div_mod_to_equations. lia.
Qed.

(** A row reads sixteen cells, and a seventeenth when the partial
    character is drawn. *)
Lemma row_copied_reads ty tx bXOff m :
  0 <= tx < 36 -> 0 <= bXOff < 8 ->
  loads (snd (row_copied ucFont ty tx bXOff m)) =
  loads m ++ run_of (fun k => (tx + k) mod 18 + ty * 18)
                    (if bXOff =? 0 then 16 else 17).
Proof.
  intros Htx Hb. unfold row_copied.
  pose proof (cells_copied_reads 16 ty tx 0 bXOff m Htx) as R.
  destruct (cells_copied_tx ucFont 16 ty tx 0 bXOff m Htx) as (_ & W & _).
  destruct (cells_copied_end ucFont 16 ty tx 0 bXOff m) as (tx' & m1 & E & _).
  rewrite E in *. cbn [fst snd] in R, W.
  replace (0 + (8 - bXOff) + 8 * Z.of_nat 15) with (128 - bXOff) by lia.
  unfold SCREEN_WIDTH. destruct (Z.eqb_spec bXOff 0) as [->|Hne].
  - simpl. exact R.
  - replace (128 - bXOff =? 128) with false by (symmetry; apply Z.eqb_neq; lia).
    simpl negb. cbv iota. cbn [snd].
    rewrite loads_memcpy_P, loads_log_load, loads_log_other by reflexivity.
    rewrite R, W, run_of_snoc, <- app_assoc. reflexivity.
Qed.

Lemma row_shifted_reads ty bYOff tx bXOff m :
  0 <= tx < 36 -> 0 <= bXOff < 8 ->
  loads (snd (row_shifted ucFont ty bYOff tx bXOff m)) =
  loads m ++ flat_map (fun i => [i; next_line i])
                      (run_of (fun k => (tx + k) mod 18 + ty * 18)
                              (if bXOff =? 0 then 16 else 17)).
Proof.
  intros Htx Hb. unfold row_shifted.
  pose proof (cells_shifted_reads 16 ty bYOff tx 0 bXOff m Htx) as R.
  destruct (cells_shifted_tx ucFont 16 ty bYOff tx 0 bXOff m Htx) as (_ & W & _).
  destruct (cells_shifted_end ucFont 16 ty bYOff tx 0 bXOff m) as (tx' & m1 & E & _).
  rewrite E in *. cbn [fst snd] in R, W.
  replace (0 + (8 - bXOff) + 8 * Z.of_nat 15) with (128 - bXOff) by lia.
  unfold SCREEN_WIDTH. destruct (Z.eqb_spec bXOff 0) as [->|Hne].
  - simpl. exact R.
  - replace (128 - bXOff =? 128) with false by (symmetry; apply Z.eqb_neq; lia).
    simpl negb. cbv iota. cbn [snd].
    rewrite loads_DrawShiftedChar, !loads_log_load, loads_log_other by reflexivity.
    rewrite R, W, run_of_snoc, flat_map_app, <- !app_assoc. reflexivity.
Qed.

Lemma draw_page_reads bScrollX bYOff pg ty m :
  0 <= bScrollX < 256 ->
  loads (snd (draw_page ucFont ucSprites ucBigSprites numberOfSprites
                        bScrollX bYOff pg ty (Z.land bScrollX 7) m)) =
  loads m ++ page_reads bScrollX bYOff (wrap_ty ty).
Proof.
  intros Hx. unfold draw_page, page_reads, cell_reads.
  assert (Htx : 0 <= Z.shiftr bScrollX 3 < 36).
  { rewrite Z.shiftr_div_pow2 by lia. change (2 ^ 3) with 8.
    split; [apply Z.div_pos; lia|]. apply Z.div_lt_upper_bound; lia. }
  assert (Hb : 0 <= Z.land bScrollX 7 < 8).
  { rewrite land_7_mod. apply Z.mod_pos_bound. lia. }
  destruct (bYOff =? 0); simpl negb; cbv iota.
  - pose proof (row_copied_reads (wrap_ty ty) (Z.shiftr bScrollX 3)
                  (Z.land bScrollX 7) (clear_row m) Htx Hb) as R.
    destruct (row_copied ucFont _ _ _ _) as [bx m1]. cbn [snd] in *.
    unfold send_row. rewrite loads_log_other, loads_DrawSprites by reflexivity.
    rewrite R. f_equal. clear R.
    induction (run_of _ _) as [|i l IH]; simpl; [reflexivity|]. f_equal. exact IH.
  - pose proof (row_shifted_reads (wrap_ty ty) bYOff (Z.shiftr bScrollX 3)
                  (Z.land bScrollX 7) (clear_row m) Htx Hb) as R.
    destruct (row_shifted ucFont _ _ _ _ _) as [bx m1]. cbn [snd] in *.
    unfold send_row. rewrite loads_log_other, loads_DrawSprites by reflexivity.
    exact R.
Qed.

(** The reads of [n] pages, page by page. *)
Lemma draw_pages_reads bScrollX bYOff n : forall pg ty m,
  0 <= bScrollX < 256 ->
  loads (draw_pages ucFont ucSprites ucBigSprites numberOfSprites
                    n bScrollX bYOff pg ty (Z.land bScrollX 7) m) =
  loads m ++ flat_map (fun p => page_reads bScrollX bYOff (tile_row ty p)) (seq 0 n).
Proof.
  induction n as [|n IH]; intros pg ty m Hx.
  - simpl. now rewrite app_nil_r.
  - rewrite flat_map_seq_S. simpl draw_pages.
    assert (Hb : 0 <= Z.land bScrollX 7 < 256).
    { rewrite land_7_mod. pose proof (Z.mod_pos_bound bScrollX 8). lia. }
    pose proof (draw_page_reads bScrollX bYOff pg ty m Hx) as R.
    destruct (draw_page_end ucFont ucSprites ucBigSprites numberOfSprites
                bScrollX bYOff pg ty (Z.land bScrollX 7) m Hb) as (m1 & E & _).
    rewrite E in *. cbn [snd] in R.
    rewrite IH, R, <- app_assoc by exact Hx. do 2 f_equal.
    apply flat_map_ext. intros p. f_equal.
    unfold tile_row. f_equal.
    induction p as [|p IHp]; [reflexivity|]. simpl. now rewrite IHp.
Qed.

(** What [DrawPlayfield] reads, for every scroll position. *)
Lemma DrawPlayfield_reads bScrollX bScrollY m :
  0 <= bScrollX < 256 ->
  loads (DrawPlayfield ucFont ucSprites ucBigSprites numberOfSprites
                       bScrollX bScrollY m) =
  loads m ++ flat_map (fun p => page_reads bScrollX (Z.land bScrollY 7)
                                           (tile_row (Z.shiftr bScrollY 3) p))
                      (seq 0 8).
Proof. intros Hx. unfold DrawPlayfield. now apply draw_pages_reads. Qed.

End Reads.

Lemma page_reads_in_bounds bScrollX bYOff row :
  0 <= row < 10 -> Forall (fun i => 0 <= i < 180) (page_reads bScrollX bYOff row).
Proof.
  intros Hr. unfold page_reads. apply Forall_flat_map.
  unfold run_of. apply Forall_map. apply List.Forall_forall. intros k _.
  assert (Hi : 0 <= (Z.shiftr bScrollX 3 + Z.of_nat k) mod 18 + row * 18 < 180).
  { pose proof (Z.mod_pos_bound (Z.shiftr bScrollX 3 + Z.of_nat k) 18). lia. }
  unfold cell_reads. destruct (bYOff =? 0).
  - constructor; [exact Hi|constructor].
  - constructor; [exact Hi|]. constructor; [|constructor].
    now apply next_line_range.
Qed.

(** The single conditional subtraction is a reduction modulo 10 as long as
    [ty] starts below 20, that is for [bScrollY < 160]. *)
Lemma ty_before_small ty0 p :
  0 <= ty0 < 20 ->
  0 <= ty_before ty0 p < 20 /\
  ty_before ty0 p mod 10 = (ty0 + Z.of_nat p) mod 10.
Proof.
  intros H0. induction p as [|p [IHr IHm]].
  - simpl. split; [exact H0|]. now rewrite Z.add_0_r.
  - simpl ty_before.
    assert (Hw : 0 <= wrap_ty (ty_before ty0 p) < 10 /\
                 wrap_ty (ty_before ty0 p) mod 10 = ty_before ty0 p mod 10).
    { unfold wrap_ty. destruct (Z.geb_spec (ty_before ty0 p) 10).
      - split; [lia|].
        replace (ty_before ty0 p) with (ty_before ty0 p - 10 + 1 * 10) at 2 by lia.
        now rewrite Z.mod_add by lia.
      - split; [lia|reflexivity]. }
    destruct Hw as [Hr Hm]. rewrite to_byte_small by lia. split; [lia|].
    rewrite Z.add_mod, Hm, IHm, <- Z.add_mod by lia. f_equal. lia.
Qed.

Lemma tile_row_wraps ty0 p :
  0 <= ty0 < 20 -> tile_row ty0 p = (ty0 + Z.of_nat p) mod 10.
Proof.
  intros H0. destruct (ty_before_small ty0 p H0) as [Hr Hm].
  unfold tile_row, wrap_ty. destruct (Z.geb_spec (ty_before ty0 p) 10).
  - rewrite <- Hm.
    replace (ty_before ty0 p) with (ty_before ty0 p - 10 + 1 * 10) at 2 by lia.
    rewrite Z.mod_add by lia. symmetry. apply Z.mod_small. lia.
  - rewrite <- Hm. symmetry. apply Z.mod_small. lia.
Qed.

(** C2, amended.  For every [bScrollX] and for [bScrollY] below 160, which
    covers the 0..79 the main loop of the demo produces, the tile row
    [DrawPlayfield] uses on page [p] is [((bScrollY >> 3) + p) mod 10]:
    what it reads from [bPlayfield] is, page after page, the cells of that
    row from column [bScrollX >> 3] on (and on the shift path the cell one
    line below each), and every index it reads is below 180. *)
Theorem playfield_reads_in_bounds
        (ucFont ucSprites ucBigSprites : Z -> Z) (numberOfSprites : Z)
        (bScrollX bScrollY : Z) (m : machine) :
  0 <= bScrollX < 256 -> 0 <= bScrollY < 160 ->
  (forall p, tile_row (Z.shiftr bScrollY 3) p = (Z.shiftr bScrollY 3 + Z.of_nat p) mod 10)
  /\ loads (DrawPlayfield ucFont ucSprites ucBigSprites numberOfSprites
                          bScrollX bScrollY m) =
     loads m ++ frame_reads bScrollX bScrollY
  /\ Forall (fun i => 0 <= i < 180) (frame_reads bScrollX bScrollY).
Proof.
  intros Hx Hy.
  assert (Hty : 0 <= Z.shiftr bScrollY 3 < 20).
  { rewrite Z.shiftr_div_pow2 by lia. change (2 ^ 3) with 8.
    split; [apply Z.div_pos; lia|]. apply Z.div_lt_upper_bound; lia. }
  split; [|split].
  - intros p. now apply tile_row_wraps.
  - rewrite DrawPlayfield_reads by exact Hx. f_equal. unfold frame_reads.
    apply flat_map_ext. intros p. now rewrite tile_row_wraps.
  - unfold frame_reads. apply Forall_flat_map.
    apply List.Forall_forall. intros p _.
    apply page_reads_in_bounds. apply Z.mod_pos_bound. lia.
Qed.

(** A frame of the demo, scrolled to (4, 68). *)
Lemma playfield_reads_in_bounds_witness :
  loads (DrawPlayfield Demo.ucFont Demo.ucSprites Demo.ucBigSprites
                       Demo.numberOfSprites 4 68 Demo.setup) =
    loads Demo.setup ++ frame_reads 4 68
  /\ Forall (fun i => 0 <= i < 180) (frame_reads 4 68).
Proof.
  exact (proj2 (playfield_reads_in_bounds Demo.ucFont Demo.ucSprites
                  Demo.ucBigSprites Demo.numberOfSprites 4 68 Demo.setup
                  ltac:(lia) ltac:(lia))).
Defined.

(** C2 as stated fails from [bScrollY = 160] on.  There the single
    [ty -= 10] leaves the tile row of page 0 at 10 instead of
    [(20 + 0) mod 10 = 0], and the sixteen cells of that page read
    [bPlayfield[180 .. 195]], past the end of the 180-byte array.  For
    every [bScrollY] in 160..255 the tile row of page 0 is 10 or more. *)
Lemma tile_row_not_wrapped_at_160 :
  let m' := DrawPlayfield Demo.ucFont Demo.ucSprites Demo.ucBigSprites
                          Demo.numberOfSprites 0 160 Demo.setup in
  length (bPlayfield Demo.setup) = 180%nat /\
  tile_row (Z.shiftr 160 3) 0 = 10 /\
  (Z.shiftr 160 3 + 0) mod 10 = 0 /\
  take 16 (loads m') =
    [180; 181; 182; 183; 184; 185; 186; 187; 188; 189; 190; 191; 192; 193; 194; 195] /\
  (forall bScrollY, 160 <= bScrollY < 256 -> 10 <= tile_row (Z.shiftr bScrollY 3) 0).
Proof.
  split; [reflexivity|]. split; [reflexivity|]. split; [reflexivity|].
  split; [vm_compute; reflexivity|].
  intros bScrollY H. unfold tile_row, wrap_ty. simpl ty_before.
  assert (20 <= Z.shiftr bScrollY 3).
  { rewrite Z.shiftr_div_pow2 by lia. change (2 ^ 3) with 8.
    apply Z.div_le_lower_bound; lia. }
  destruct (Z.geb_spec (Z.shiftr bScrollY 3) 10); lia.
Qed.

(** * Further properties *)

(** ** The playfield of the scrolling sketch *)

Section ScrollerPlayfield.

Variable tileMap : Z -> Z -> Z.

Lemma set_playfield_length i v m :
  length (bPlayfield (Scroller.set_playfield i v m)) = length (bPlayfield m).
Proof. simpl. apply length_insert. Qed.

Lemma reload_row_length n : forall row d x0 m,
  length (bPlayfield (Scroller.reload_row tileMap n row d x0 m)) =
  length (bPlayfield m).
Proof.
  induction n as [|n IH]; intros row d x0 m; simpl; [reflexivity|].
  rewrite IH. apply length_insert.
Qed.

Lemma reload_row_out n : forall row d x0 m (i : nat),
  0 <= d -> (i < Z.to_nat d \/ Z.to_nat d + n <= i)%nat ->
  bPlayfield (Scroller.reload_row tileMap n row d x0 m) !! i = bPlayfield m !! i.
Proof.
  induction n as [|n IH]; intros row d x0 m i Hd Hi; simpl; [reflexivity|].
  rewrite IH by lia. simpl. apply list_lookup_insert_ne. lia.
Qed.

Lemma reload_row_in n : forall row d x0 m k,
  0 <= d -> 0 <= k < Z.of_nat n ->
  (Z.to_nat d + n <= length (bPlayfield m))%nat ->
  bPlayfield (Scroller.reload_row tileMap n row d x0 m) !! Z.to_nat (d + k) =
  Some (pgm_read_byte (tileMap row) (x0 + k)).
Proof.
  induction n as [|n IH]; intros row d x0 m k Hd Hk Hlen; [lia|].
  simpl. destruct (Z.eq_dec k 0) as [->|Hne].
  - rewrite reload_row_out by lia. simpl. rewrite !Z.add_0_r.
    apply list_lookup_insert_eq. lia.
  - replace (d + k) with (d + 1 + (k - 1)) by lia.
    rewrite IH; [f_equal; f_equal; lia|lia|lia|].
    simpl. rewrite length_insert. lia.
Qed.

Lemma row_start a :
  0 <= a ->
  to_byte (Z.rem (a * Scroller.PLAYFIELD_COLS)
                 (Scroller.PLAYFIELD_COLS * Scroller.PLAYFIELD_ROWS)) =
  a mod 10 * 18.
Proof.
  intros Ha. change Scroller.PLAYFIELD_COLS with 18.
  change Scroller.PLAYFIELD_ROWS with 10.
  rewrite Z.rem_mod_nonneg by lia.
  assert (E : (a * 18) mod (18 * 10) = a mod 10 * 18)
    by (Z.div_mod_to_equations; lia).
  rewrite E. apply to_byte_small. Z.div_mod_to_equations. lia.
Qed.

Lemma reload_rows_S n iStart y0 m :
  Scroller.reload_rows tileMap (S n) iStart y0 m =
  Scroller.reload_rows tileMap n iStart (y0 + 1)
    (Scroller.reload_row tileMap 18
       (Z.rem (iStart + y0) Scroller.TILEMAP_HEIGHT)
       (to_byte (Z.rem ((iStart + y0) * Scroller.PLAYFIELD_COLS)
                       (Scroller.PLAYFIELD_COLS * Scroller.PLAYFIELD_ROWS)))
       0 m).
Proof. reflexivity. Qed.

Lemma reload_rows_length n : forall iStart y0 m,
  length (bPlayfield (Scroller.reload_rows tileMap n iStart y0 m)) =
  length (bPlayfield m).
Proof.
  induction n as [|n IH]; intros iStart y0 m; [reflexivity|].
  rewrite reload_rows_S, IH. apply reload_row_length.
Qed.

(** A cell outside the rows being reloaded keeps its tile. *)
Lemma reload_rows_out n : forall iStart y0 m (i : nat),
  0 <= iStart -> 0 <= y0 ->
  (forall y, y0 <= y < y0 + Z.of_nat n ->
     ~ ((iStart + y) mod 10 * 18 <= Z.of_nat i < (iStart + y) mod 10 * 18 + 18)) ->
  bPlayfield (Scroller.reload_rows tileMap n iStart y0 m) !! i = bPlayfield m !! i.
Proof.
  induction n as [|n IH]; intros iStart y0 m i Hs Hy Hi; [reflexivity|].
  rewrite reload_rows_S.
  rewrite IH; [|exact Hs|lia|intros y Hyy; apply Hi; lia].
  rewrite row_start by lia.
  apply reload_row_out; [Z.div_mod_to_equations; lia|].
  specialize (Hi y0 ltac:(lia)).
  Z.div_mod_to_equations. lia.
Qed.

Lemma reload_rows_in n : forall iStart y0 m y,
  0 <= iStart -> 0 <= y0 -> y0 + Z.of_nat n <= 10 ->
  length (bPlayfield m) = 180%nat ->
  y0 <= y < y0 + Z.of_nat n ->
  row_holds tileMap (bPlayfield (Scroller.reload_rows tileMap n iStart y0 m))
            ((iStart + y) mod 10) ((iStart + y) mod 29).
Proof.
  induction n as [|n IH]; intros iStart y0 m y Hs Hy0 Hn Hlen Hy; [lia|].
  rewrite reload_rows_S. destruct (Z.eq_dec y y0) as [->|Hne].
  - intros k Hk. rewrite reload_rows_out; [|exact Hs|lia|].
    + rewrite row_start by lia.
      change Scroller.TILEMAP_HEIGHT with 29.
      rewrite Z.rem_mod_nonneg by lia.
      rewrite reload_row_in; [reflexivity| | |].
      * Z.div_mod_to_equations. lia.
      * lia.
      * rewrite Hlen. Z.div_mod_to_equations. lia.
    + intros y Hyy. Z.div_mod_to_equations. lia.
  - apply IH; [exact Hs|lia|lia| |lia].
    rewrite reload_row_length. exact Hlen.
Qed.

(** Storing what is already there changes nothing. *)
Lemma adjust_loop_same n : forall x1 d1 d2 r1 r2 m,
  (forall k, x1 <= k < x1 + Z.of_nat n ->
     bPlayfield m !! Z.to_nat (d1 + k) = Some (pgm_read_byte (tileMap r1) k) /\
     bPlayfield m !! Z.to_nat (d2 + k) = Some (pgm_read_byte (tileMap r2) k)) ->
  bPlayfield (Scroller.adjust_loop tileMap n x1 d1 d2 r1 r2 m) = bPlayfield m.
Proof.
  induction n as [|n IH]; intros x1 d1 d2 r1 r2 m H; [reflexivity|].
  rewrite adjust_loop_S. destruct (H x1 ltac:(lia)) as [A B].
  assert (E : bPlayfield
                (Scroller.set_playfield (d2 + x1) (pgm_read_byte (tileMap r2) x1)
                   (Scroller.set_playfield (d1 + x1)
                      (pgm_read_byte (tileMap r1) x1) m)) = bPlayfield m).
  { simpl. rewrite (list_insert_id (bPlayfield m)) by exact A.
    now apply list_insert_id. }
  rewrite IH; [exact E|]. intros k Hk. rewrite E. apply H. lia.
Qed.

Lemma reload_rows_frame n : forall iStart y0 m,
  let m' := Scroller.reload_rows tileMap n iStart y0 m in
  bTemp m' = bTemp m /\ object_list m' = object_list m /\
  iScrollX m' = iScrollX m /\ iScrollY m' = iScrollY m /\ trace m' = trace m.
Proof.
  assert (R : forall k row d x0 m0,
            let m' := Scroller.reload_row tileMap k row d x0 m0 in
            bTemp m' = bTemp m0 /\ object_list m' = object_list m0 /\
            iScrollX m' = iScrollX m0 /\ iScrollY m' = iScrollY m0 /\
            trace m' = trace m0).
  { induction k as [|k IHk]; intros row d x0 m0; simpl; [repeat split|].
    destruct (IHk row (d + 1) (x0 + 1)
                (Scroller.set_playfield d (pgm_read_byte (tileMap row) x0) m0))
      as (A & B & C & D & E).
    repeat split; assumption. }
  induction n as [|n IH]; intros iStart y0 m; [repeat split|].
  cbv zeta. rewrite reload_rows_S.
  match goal with
  | |- context [Scroller.reload_rows tileMap n iStart (y0 + 1) ?m1] =>
      destruct (IH iStart (y0 + 1) m1) as (A & B & C & D & E)
  end.
  match goal with
  | |- context [Scroller.reload_row tileMap 18 ?a ?b ?c m] =>
      destruct (R 18%nat a b c m) as (A' & B' & C' & D' & E')
  end.
  repeat split; congruence.
Qed.

(** X1.  [reloadPlayField] loads the whole playfield with ten consecutive
    rows of the tile map, starting at the row the scroll stands in: the map
    row [iStart + y] (modulo the 29 rows of the map) goes to playfield row
    [(iStart + y) mod 10].  Nothing else changes. *)
Theorem reloadPlayField_loads_ten_rows (m : machine) :
  length (bPlayfield m) = 180%nat ->
  let iStart := to_byte (Z.shiftr (iScrollY m) 3) in
  let m' := Scroller.reloadPlayField tileMap m in
  (forall y, 0 <= y < 10 ->
     row_holds tileMap (bPlayfield m') ((iStart + y) mod 10) ((iStart + y) mod 29))
  /\ length (bPlayfield m') = 180%nat
  /\ bTemp m' = bTemp m /\ object_list m' = object_list m
  /\ iScrollX m' = iScrollX m /\ iScrollY m' = iScrollY m /\ trace m' = trace m.
Proof.
  intros Hlen iStart m'. unfold m', Scroller.reloadPlayField. fold iStart.
  change (Z.to_nat Scroller.PLAYFIELD_ROWS) with 10%nat.
  pose proof (to_byte_range (Z.shiftr (iScrollY m) 3)) as Hs. fold iStart in Hs.
  split; [|split; [now rewrite reload_rows_length|apply reload_rows_frame]].
  intros y Hy. apply reload_rows_in; lia.
Qed.

(** X2.  Straight after [reloadPlayField] the refresh finds both of its
    rows already in place: [adjustPlayField] leaves the playfield as the
    reload made it. *)
Theorem adjustPlayField_after_reload (m : machine) :
  length (bPlayfield m) = 180%nat ->
  0 <= iScrollY m < 2040 ->
  bPlayfield (Scroller.adjustPlayField tileMap (Scroller.reloadPlayField tileMap m)) =
  bPlayfield (Scroller.reloadPlayField tileMap m).
Proof.
  intros Hlen Hy.
  assert (Hs : 0 <= Z.shiftr (iScrollY m) 3 < 255).
  { rewrite Z.shiftr_div_pow2 by lia. change (2 ^ 3) with 8.
    Z.div_mod_to_equations. lia. }
  assert (Rows : forall y, 0 <= y < 10 ->
            row_holds tileMap (bPlayfield (Scroller.reloadPlayField tileMap m))
                      ((Z.shiftr (iScrollY m) 3 + y) mod 10)
                      ((Z.shiftr (iScrollY m) 3 + y) mod 29)).
  { intros y Hy0. unfold Scroller.reloadPlayField.
    rewrite (to_byte_small (Z.shiftr (iScrollY m) 3)) by lia.
    change (Z.to_nat Scroller.PLAYFIELD_ROWS) with 10%nat.
    apply reload_rows_in; lia. }
  assert (EY : iScrollY (Scroller.reloadPlayField tileMap m) = iScrollY m)
    by apply reload_rows_frame.
  unfold Scroller.adjustPlayField. rewrite EY.
  change (Z.shiftr (iScrollY m) 3 + Scroller.EDGES / 2)
    with (Z.shiftr (iScrollY m) 3 + 1).
  rewrite (to_byte_small (Z.shiftr (iScrollY m) 3 + 1)) by lia.
  destruct (adjust_rows (Z.shiftr (iScrollY m) 3 + 1) ltac:(lia)) as (E1 & E2 & E3 & E4).
  cbv zeta. rewrite E1, E2, E3, E4.
  change (Z.to_nat Scroller.PLAYFIELD_COLS) with 18%nat.
  apply adjust_loop_same. intros k Hk. split.
  - replace (Z.shiftr (iScrollY m) 3 + 1 + 8) with (Z.shiftr (iScrollY m) 3 + 9) by lia.
    apply (Rows 9); lia.
  - apply (Rows 1); lia.
Qed.

(** X3.  The refresh keeps the playfield in step with the scroll.  If the
    nine rows a frame can draw are right for tile row [r] and the scroll has
    moved to a tile row [r'] at most one away, then after [adjustPlayField]
    they are right for [r']. *)
Theorem adjustPlayField_follows_scroll (m : machine) (r : Z) :
  length (bPlayfield m) = 180%nat ->
  window tileMap (bPlayfield m) r ->
  let r' := Z.shiftr (iScrollY m) 3 in
  r - 1 <= r' <= r + 1 -> 0 <= r' < 255 ->
  window tileMap (bPlayfield (Scroller.adjustPlayField tileMap m)) r'.
Proof.
  intros Hlen W r' Hr Hb.
  destruct (adjustPlayField_cells tileMap m) as (In2 & Out & _).
  cbv zeta in In2, Out. fold r' in In2, Out.
  rewrite (to_byte_small (r' + 1)) in In2, Out by lia.
  specialize (In2 Hlen).
  intros j Hj.
  destruct (Z.eq_dec j 1) as [->|H1]; [intros k Hk; apply In2; exact Hk|].
  destruct (Z.eq_dec j 9) as [->|H9].
  { replace (r' + 9) with (r' + 1 + 8) by lia. intros k Hk. apply In2. exact Hk. }
  intros k Hk. rewrite Out.
  - replace (r' + j) with (r + (r' - r + j)) by lia. apply W; lia.
  - Z.div_mod_to_equations. lia.
  - Z.div_mod_to_equations. lia.
Qed.

End ScrollerPlayfield.

Lemma reloadPlayField_loads_ten_rows_witness :
  row_holds Scroller.tileMap (bPlayfield Scroller.setup) 3 3.
Proof.
  exact (proj1 (reloadPlayField_loads_ten_rows Scroller.tileMap
                  (mkMachine (replicate 128 0) (replicate 180 0)
                             [mkObject 14 40 128] 0 0 [])
                  eq_refl) 3 ltac:(lia)).
Defined.

Lemma adjustPlayField_after_reload_witness :
  bPlayfield (Scroller.adjustPlayField Scroller.tileMap Scroller.setup) =
  bPlayfield Scroller.setup.
Proof.
  apply (adjustPlayField_after_reload Scroller.tileMap
           (mkMachine (replicate 128 0) (replicate 180 0)
                      [mkObject 14 40 128] 0 0 [])).
  - reflexivity.
  - simpl. lia.
Defined.

Lemma setup_window : window Scroller.tileMap (bPlayfield Scroller.setup) 0.
Proof.
  intros j Hj.
  apply (reload_rows_in Scroller.tileMap 10 0 0
           (mkMachine (replicate 128 0) (replicate 180 0)
                      [mkObject 14 40 128] 0 0 []) j); try lia.
  reflexivity.
Qed.

Lemma adjustPlayField_follows_scroll_witness :
  window Scroller.tileMap
         (bPlayfield (Scroller.adjustPlayField Scroller.tileMap
                        (mkMachine (bTemp Scroller.setup) (bPlayfield Scroller.setup)
                                   (object_list Scroller.setup) 0 8 []))) 1.
Proof.
  apply (adjustPlayField_follows_scroll Scroller.tileMap
           (mkMachine (bTemp Scroller.setup) (bPlayfield Scroller.setup)
                      (object_list Scroller.setup) 0 8 []) 0).
  - vm_compute. reflexivity.
  - exact setup_window.
  - vm_compute. intuition discriminate.
  - vm_compute. intuition discriminate.
Defined.

(** ** The reads of the scrolling sketch *)

Section ScrollerReads.

Variable ucTiles : Z -> Z.

Lemma wrap_cols_nonneg tx : 0 <= tx -> 0 <= Scroller.wrap_cols tx.
Proof.
  intros H. unfold Scroller.wrap_cols. change Scroller.PLAYFIELD_COLS with 18.
  destruct (Z.geb_spec tx 18); lia.
Qed.

Lemma wrap_rows_nonneg ty : 0 <= ty -> 0 <= Scroller.wrap_rows ty.
Proof.
  intros H. unfold Scroller.wrap_rows. change Scroller.PLAYFIELD_ROWS with 10.
  destruct (Z.geb_spec ty 10); lia.
Qed.

Lemma rem_180_range a :
  0 <= a -> 0 <= Z.rem a (Scroller.PLAYFIELD_ROWS * Scroller.PLAYFIELD_COLS) < 180.
Proof.
  intros H. change (Scroller.PLAYFIELD_ROWS * Scroller.PLAYFIELD_COLS) with 180.
  rewrite Z.rem_mod_nonneg by lia. apply Z.mod_pos_bound. lia.
Qed.

Lemma scroller_cells_copied_loads n : forall ty tx d bXOff m,
  0 <= ty -> 0 <= tx ->
  exists l,
    loads (snd (Scroller.cells_copied ucTiles n ty tx d bXOff m)) = loads m ++ l /\
    length l = n /\ Forall (fun i => 0 <= i < 180) l.
Proof.
  induction n as [|n IH]; intros ty tx d bXOff m Hty Htx.
  - exists []. simpl. now rewrite app_nil_r.
  - simpl Scroller.cells_copied. cbv zeta.
    pose proof (wrap_cols_nonneg tx Htx) as Hw.
    match goal with
    | |- context [Scroller.cells_copied ucTiles n ty ?tx1 ?d1 0 ?m1] =>
        destruct (IH ty tx1 d1 0 m1 Hty ltac:(apply to_byte_range)) as (l & E & L & F)
    end.
    rewrite E, loads_memcpy_P, loads_log_load, <- app_assoc.
    eexists. split; [reflexivity|]. split; [simpl; now rewrite L|].
    constructor; [|exact F]. apply rem_180_range.
    change Scroller.PLAYFIELD_COLS with 18. lia.
Qed.

Lemma scroller_cells_shifted_loads n : forall ty bYOff tx d bXOff m,
  0 <= ty -> 0 <= tx ->
  exists l,
    loads (snd (Scroller.cells_shifted ucTiles n ty bYOff tx d bXOff m)) = loads m ++ l /\
    length l = (2 * n)%nat /\ Forall (fun i => 0 <= i < 180) l.
Proof.
  induction n as [|n IH]; intros ty bYOff tx d bXOff m Hty Htx.
  - exists []. simpl. now rewrite app_nil_r.
  - simpl Scroller.cells_shifted. cbv zeta.
    pose proof (wrap_cols_nonneg tx Htx) as Hw.
    match goal with
    | |- context [Scroller.cells_shifted ucTiles n ty bYOff ?tx1 ?d1 0 ?m1] =>
        destruct (IH ty bYOff tx1 d1 0 m1 Hty ltac:(apply to_byte_range))
          as (l & E & L & F)
    end.
    rewrite E, loads_DrawShiftedChar, !loads_log_load, <- !app_assoc.
    eexists. split; [reflexivity|]. split; [simpl; rewrite L; lia|].
    simpl. constructor; [|constructor; [|exact F]].
    + apply rem_180_range. change Scroller.PLAYFIELD_COLS with 18. lia.
    + apply rem_180_range.
      change Scroller.PLAYFIELD_COLS with 18. change Scroller.PLAYFIELD_ROWS with 10.
      destruct (Z.geb_spec (Scroller.wrap_cols tx + ty * 18 + 18) (10 * 18)); lia.
Qed.

Lemma scroller_draw_pages_loads bScrollX bYOff n : forall pg ty bXOff m,
  0 <= ty ->
  exists l,
    loads (Scroller.draw_pages ucTiles n bScrollX bYOff pg ty bXOff m) = loads m ++ l /\
    length l = (n * (if (bYOff =? 0)%Z then 16 else 32))%nat /\
    Forall (fun i => 0 <= i < 180) l.
Proof.
  induction n as [|n IH]; intros pg ty bXOff m Hty.
  - exists []. simpl. now rewrite app_nil_r.
  - simpl Scroller.draw_pages. unfold Scroller.draw_page.
    pose proof (wrap_rows_nonneg ty Hty) as Hw.
    set (tx := to_byte (Z.shiftr bScrollX 3 + Scroller.EDGES / 2)).
    assert (Htx : 0 <= tx) by apply to_byte_range.
    destruct (Z.eqb_spec bYOff 0) as [HY|HY]; simpl negb; cbv iota.
    + destruct (scroller_cells_copied_loads 16 (Scroller.wrap_rows ty) tx 0 bXOff
                  (clear_row m) Hw Htx) as (l1 & E1 & L1 & F1).
      destruct (Scroller.cells_copied ucTiles 16 _ _ _ _ _) as [[[tx' d'] bx'] m1].
      simpl in E1.
      destruct (IH (pg + 1) (Scroller.wrap_rows ty + 1) bx' (send_row pg m1) ltac:(lia))
        as (l2 & E2 & L2 & F2).
      rewrite E2. unfold send_row. rewrite loads_log_other by reflexivity.
      rewrite E1. change (loads (clear_row m)) with (loads m). rewrite <- app_assoc.
      eexists. split; [reflexivity|]. split.
      * rewrite length_app, L1, L2. lia.
      * apply Forall_app. auto.
    + destruct (scroller_cells_shifted_loads 16 (Scroller.wrap_rows ty) bYOff tx 0 bXOff
                  (clear_row m) Hw Htx) as (l1 & E1 & L1 & F1).
      destruct (Scroller.cells_shifted ucTiles 16 _ _ _ _ _ _) as [[[tx' d'] bx'] m1].
      simpl in E1.
      destruct (IH (pg + 1) (Scroller.wrap_rows ty + 1) bx' (send_row pg m1) ltac:(lia))
        as (l2 & E2 & L2 & F2).
      rewrite E2. unfold send_row. rewrite loads_log_other by reflexivity.
      rewrite E1. change (loads (clear_row m)) with (loads m). rewrite <- app_assoc.
      eexists. split; [reflexivity|]. split.
      * rewrite length_app, L1, L2. lia.
      * apply Forall_app. auto.
Qed.

End ScrollerReads.

(** X4.  In the scrolling sketch every playfield read of [DrawPlayfield] is
    in bounds, whatever the scroll: each index is reduced modulo 180 before
    use.  A frame reads 128 cells, one per tile, when the vertical offset is
    zero and 256, two per tile, when it is not. *)
Theorem scroller_reads_in_bounds
        (ucTiles : Z -> Z) (tileMap : Z -> Z -> Z) (bScrollX bScrollY : Z) (m : machine) :
  0 <= bScrollY ->
  exists l,
    loads (Scroller.DrawPlayfield ucTiles tileMap bScrollX bScrollY m) = loads m ++ l /\
    length l = (if (bScrollY mod 8 =? 0)%Z then 128 else 256)%nat /\
    Forall (fun i => 0 <= i < 180) l.
Proof.
  intros Hy. unfold Scroller.DrawPlayfield.
  assert (Hty : 0 <= Z.shiftr bScrollY 3 + Scroller.EDGES / 2).
  { change (Scroller.EDGES / 2) with 1. rewrite Z.shiftr_div_pow2 by lia.
    change (2 ^ 3) with 8. Z.div_mod_to_equations. lia. }
  destruct (scroller_draw_pages_loads ucTiles bScrollX
              (Z.land bScrollY (Scroller.MODULE - 1)) 8 0
              (Z.shiftr bScrollY 3 + Scroller.EDGES / 2)
              (Z.land bScrollX (Scroller.MODULE - 1))
              (Scroller.adjustPlayField tileMap m) Hty) as (l & E & L & F).
  exists l. split; [|split; [|exact F]].
  - rewrite E. unfold loads.
    destruct (adjustPlayField_frame tileMap m) as (_ & _ & _ & _ & T). now rewrite T.
  - rewrite L. change (Scroller.MODULE - 1) with 7. rewrite land_7_mod.
    destruct (bScrollY mod 8 =? 0); reflexivity.
Qed.

Lemma scroller_reads_in_bounds_witness :
  exists l,
    loads (Scroller.DrawPlayfield Scroller.ucTiles Scroller.tileMap 3 250
                                  Scroller.setup) = loads Scroller.setup ++ l /\
    length l = 256%nat /\
    Forall (fun i => 0 <= i < 180) l.
Proof.
  apply (scroller_reads_in_bounds Scroller.ucTiles Scroller.tileMap 3 250
                                  Scroller.setup).
  lia.
Defined.

(** ** The main loop of the sprite demo *)

Lemma loop_inv_start : loop_inv (Demo.setup, 1, 1).
Proof.
  unfold loop_inv. split; [simpl; lia|]. split; [simpl; lia|].
  split; [reflexivity|].
  exists (mkObject 72 36 128). split; [reflexivity|]. simpl. lia.
Qed.

Lemma loop_inv_step s : loop_inv s -> loop_inv (Demo.advance s).
Proof.
  destruct s as [[m dx] dy]. unfold loop_inv.
  intros (HX & HY & HP & o & HO & HT & Hx & Hy & Hdx & Hx0 & Hx1 & Hdy & Hy0 & Hy1).
  unfold Demo.advance.
  assert (L : object_list m !! 15%nat = Some o).
  { rewrite HO. apply list_lookup_insert_eq. simpl. lia. }
  rewrite L. cbn [x y bType iScrollX iScrollY bPlayfield object_list].
  rewrite (to_byte_small (x o + dx)), (to_byte_small (y o + dy)) by lia.
  split; [destruct (Z.geb_spec (iScrollX m + 1) 144); lia|].
  split; [destruct (Z.geb_spec (iScrollY m + 1) 80); lia|].
  split; [exact HP|].
  exists (mkObject (x o + dx) (y o + dy) (bType o)).
  split; [rewrite HO; apply list_insert_insert_eq|].
  cbn [x y bType]. split; [exact HT|].
  destruct (Z.eqb_spec (x o + dx) 0); destruct (Z.eqb_spec (x o + dx) 111);
    destruct (Z.eqb_spec (y o + dy) 0); destruct (Z.eqb_spec (y o + dy) 47);
    cbn [orb]; lia.
Qed.

Lemma loop_inv_frame n : loop_inv (Nat.iter n Demo.advance (Demo.setup, 1, 1)).
Proof.
  induction n as [|n IH]; [apply loop_inv_start|].
  simpl. now apply loop_inv_step.
Qed.

(** X5.  Whatever the number of frames, [loop()] calls [DrawPlayfield]
    with a scroll position in 0..143 by 0..79, on the playfield [setup()]
    made, and with the object list of [setup()] in which only sprite 15
    has moved: it stays the big sprite, within 0..111 by 0..47, so that it
    never leaves the 128 by 64 display.  Every field of every object is a
    byte. *)
Theorem loop_keeps_scroll_and_sprite_in_range (n : nat) :
  let m := Demo.frame n in
  0 <= iScrollX m < 144 /\ 0 <= iScrollY m < 80
  /\ bPlayfield m = bPlayfield Demo.setup
  /\ (exists o, object_list m = <[15%nat := o]> (object_list Demo.setup) /\
                bType o = 128 /\ 0 <= x o <= 111 /\ 0 <= y o <= 47)
  /\ length (object_list m) = 19%nat
  /\ Forall byte_fields (object_list m).
Proof.
  intros m. pose proof (loop_inv_frame n) as H.
  unfold m, Demo.frame. destruct (Nat.iter n Demo.advance _) as [[m0 dx] dy].
  destruct H as (HX & HY & HP & o & HO & HT & Hx & Hy & _). cbn [fst].
  split; [exact HX|]. split; [exact HY|]. split; [exact HP|].
  split; [exists o; auto|]. rewrite HO. split.
  - rewrite length_insert. reflexivity.
  - apply Forall_insert; [apply Demo_setup_bytes|].
    unfold byte_fields. lia.
Qed.

(** ** The bytes of a row *)

Lemma peek_stores_in vs d m j :
  0 <= d -> d <= j < d + Z.of_nat (length vs) ->
  d + Z.of_nat (length vs) <= Z.of_nat (length (bTemp m)) ->
  peek (stores d vs m) j = default 0 (vs !! Z.to_nat (j - d)).
Proof.
  intros Hd Hj Hlen. unfold peek.
  replace (Z.to_nat j) with (Z.to_nat d + Z.to_nat (j - d))%nat by lia.
  destruct (vs !! Z.to_nat (j - d)) as [v|] eqn:E.
  - erewrite stores_lookup_in; [reflexivity|exact Hd|exact E|lia].
  - apply lookup_ge_None in E. lia.
Qed.

Lemma peek_stores_out vs d m j :
  0 <= d -> 0 <= j -> j < d \/ d + Z.of_nat (length vs) <= j ->
  peek (stores d vs m) j = peek m j.
Proof.
  intros Hd Hj Hout. unfold peek. rewrite stores_lookup_out; [reflexivity|exact Hd|lia].
Qed.

Section RowBytes.

Variable ucFont : Z -> Z.

(** After [n] cells of the copy path the bytes from [d] on are the columns
    of the tiles of row [ty], starting [bXOff] columns into the tile in
    column [tx]; the bytes before [d] are untouched. *)
Lemma cells_copied_bytes n : forall ty tx d bXOff m,
  0 <= tx < 36 -> 0 <= bXOff < 8 -> 0 <= d ->
  d + 8 * Z.of_nat n <= Z.of_nat (length (bTemp m)) + bXOff ->
  let r := snd (cells_copied ucFont n ty tx d bXOff m) in
  (forall j, 0 <= j < d -> peek r j = peek m j) /\
  (forall j, d <= j < d + 8 * Z.of_nat n - bXOff ->
     peek r j =
     pgm_read_byte ucFont
       (playfield_at m ((tx + (j - d + bXOff) / 8) mod 18 + ty * 18) * 8
        + (j - d + bXOff) mod 8)).
Proof.
  induction n as [|n IH]; intros ty tx d bXOff m Htx Hb Hd Hlen.
  - simpl. split; [reflexivity|]. intros j Hj. lia.
  - simpl cells_copied. cbv zeta.
    pose proof (wrap_tx_range tx Htx) as Hw.
    pose proof (wrap_tx_mod tx Htx) as Hm.
    set (i := wrap_tx tx + ty * 18).
    rewrite (playfield_at_same m (log (EvLoad i) m)) by reflexivity.
    set (c := playfield_at m i).
    unfold memcpy_P. rewrite memcpy_P_loop_stores.
    set (vs := run_of (fun k => pgm_read_byte ucFont (c * 8 + bXOff + k))
                      (Z.to_nat (8 - bXOff))).
    assert (Lvs : Z.of_nat (length vs) = 8 - bXOff).
    { unfold vs. rewrite run_of_length. lia. }
    set (m2 := stores d vs (log (EvLoad i) m)).
    assert (L2 : length (bTemp m2) = length (bTemp m)).
    { unfold m2. now rewrite stores_length. }
    assert (P2 : bPlayfield m2 = bPlayfield m).
    { unfold m2. destruct (quiet_stores vs d (log (EvLoad i) m)) as [[P _] _].
      exact P. }
    rewrite to_byte_small by lia.
    destruct (IH ty (wrap_tx tx + 1) (d + (8 - bXOff)) 0 m2
                ltac:(lia) ltac:(lia) ltac:(lia) ltac:(rewrite L2; lia)) as [A B].
    split.
    + intros j Hj. rewrite A by lia. unfold m2.
      rewrite peek_stores_out by lia. reflexivity.
    + intros j Hj. destruct (Z.lt_ge_cases j (d + (8 - bXOff))) as [Hlt|Hge].
      * rewrite A by lia. unfold m2.
        rewrite peek_stores_in; [|lia|lia|simpl; lia].
        unfold vs. rewrite run_of_lookup by lia. simpl.
        rewrite Z2Nat.id by lia.
        replace ((j - d + bXOff) / 8) with 0 by (Z.div_mod_to_equations; lia).
        replace ((j - d + bXOff) mod 8) with (j - d + bXOff)
          by (Z.div_mod_to_equations; lia).
        rewrite Z.add_0_r, <- Hm. fold i. fold c. f_equal. lia.
      * rewrite B by lia.
        rewrite (playfield_at_same m m2) by exact P2.
        replace ((wrap_tx tx + 1 + (j - (d + (8 - bXOff)) + 0) / 8) mod 18)
          with ((tx + (j - d + bXOff) / 8) mod 18)
          by (rewrite Hm; Z.div_mod_to_equations; lia).
        replace ((j - (d + (8 - bXOff)) + 0) mod 8) with ((j - d + bXOff) mod 8)
          by (Z.div_mod_to_equations; lia).
        reflexivity.
Qed.

Lemma cells_copied_row ty tx bXOff m j :
  0 <= tx < 36 -> 0 <= bXOff < 8 -> length (bTemp m) = 128%nat ->
  0 <= j < 128 - bXOff ->
  peek (snd (cells_copied ucFont 16 ty tx 0 bXOff m)) j =
  pgm_read_byte ucFont
    (playfield_at m ((tx + (j + bXOff) / 8) mod 18 + ty * 18) * 8
     + (j + bXOff) mod 8).
Proof.
  intros Htx Hb Hlen Hj.
  destruct (cells_copied_bytes 16 ty tx 0 bXOff m Htx Hb ltac:(lia)
              ltac:(rewrite Hlen; lia)) as [_ B].
  rewrite (B j) by lia. rewrite Z.sub_0_r. reflexivity.
Qed.

(** X6.  On the copy path every byte of the row is a column of a tile of
    row [ty]: byte [j] is column [(j + bXOff) mod 8] of the tile
    [(j + bXOff) / 8] cells to the right of column [tx], wrapping at
    column 18.  The row is the 128 pixel columns of the tile row that
    start [bXOff] pixels into the tile in column [tx]. *)
Theorem copy_path_samples_tiles (ty tx bXOff : Z) (m : machine) (j : Z) :
  0 <= tx < 36 -> 0 <= bXOff < 8 -> length (bTemp m) = 128%nat ->
  0 <= j < 128 ->
  peek (snd (row_copied ucFont ty tx bXOff m)) j =
  pgm_read_byte ucFont
    (playfield_at m ((tx + (j + bXOff) / 8) mod 18 + ty * 18) * 8
     + (j + bXOff) mod 8).
Proof.
  intros Htx Hb Hlen Hj.
  destruct (Z.eq_dec bXOff 0) as [E|Hne].
  - subst bXOff.
    pose proof (cells_copied_row ty tx 0 m j Htx Hb Hlen ltac:(lia)) as C.
    pose proof (row_copied_whole ucFont ty tx m) as W.
    destruct (cells_copied_end ucFont 16 ty tx 0 0 m) as (tx' & m1 & E & _).
    rewrite E in C, W. rewrite W. exact C.
  - destruct (row_copied_partial ucFont ty tx bXOff m ltac:(lia) Htx Hlen)
      as (_ & K & J).
    destruct (Z.lt_ge_cases j (128 - bXOff)) as [Hlt|Hge].
    + rewrite (J j) by lia. apply cells_copied_row; assumption || lia.
    + replace j with (128 - bXOff + (j - (128 - bXOff))) at 1 by lia.
      rewrite K by lia.
      replace ((j + bXOff) / 8) with 16 by (Z.div_mod_to_equations; lia).
      replace ((j + bXOff) mod 8) with (j - (128 - bXOff))
        by (Z.div_mod_to_equations; lia).
      reflexivity.
Qed.

End RowBytes.

(** The first page of the demo, scrolled three pixels to the right: byte 6
    is column 1 of the second tile of the row. *)
Lemma copy_path_samples_tiles_witness :
  peek (snd (row_copied Demo.ucFont 0 0 3 (clear_row Demo.setup))) 6 =
  pgm_read_byte Demo.ucFont
    (playfield_at (clear_row Demo.setup) ((0 + (6 + 3) / 8) mod 18 + 0 * 18) * 8
     + (6 + 3) mod 8).
Proof.
  apply (copy_path_samples_tiles Demo.ucFont 0 0 3 (clear_row Demo.setup) 6).
  - lia.
  - lia.
  - reflexivity.
  - lia.
Defined.

Section RowBytesShifted.

Variable ucFont : Z -> Z.

(** The same for the shift path: each byte combines a column of a tile of
    row [ty] with the same column of the tile one line below it. *)
Lemma cells_shifted_bytes n : forall ty bYOff tx d bXOff m,
  0 <= tx < 36 -> 0 <= bXOff < 8 -> 0 <= d ->
  d + 8 * Z.of_nat n <= Z.of_nat (length (bTemp m)) + bXOff ->
  let r := snd (cells_shifted ucFont n ty bYOff tx d bXOff m) in
  (forall j, 0 <= j < d -> peek r j = peek m j) /\
  (forall j, d <= j < d + 8 * Z.of_nat n - bXOff ->
     let i := (tx + (j - d + bXOff) / 8) mod 18 + ty * 18 in
     peek r j =
     shifted_byte
       (pgm_read_byte ucFont (playfield_at m i * 8 + (j - d + bXOff) mod 8))
       (pgm_read_byte ucFont (playfield_at m (next_line i) * 8 + (j - d + bXOff) mod 8))
       bYOff).
Proof.
  induction n as [|n IH]; intros ty bYOff tx d bXOff m Htx Hb Hd Hlen.
  - simpl. split; [reflexivity|]. intros j Hj. lia.
  - simpl cells_shifted. cbv zeta.
    pose proof (wrap_tx_range tx Htx) as Hw.
    pose proof (wrap_tx_mod tx Htx) as Hm.
    set (i := wrap_tx tx + ty * 18).
    rewrite (playfield_at_same m (log (EvLoad i) m)) by reflexivity.
    rewrite (playfield_at_same m (log (EvLoad (next_line i)) (log (EvLoad i) m)))
      by reflexivity.
    set (c := playfield_at m i). set (c2 := playfield_at m (next_line i)).
    unfold DrawShiftedChar. rewrite DrawShiftedChar_loop_stores.
    set (vs := run_of (fun k => shifted_byte
                                  (pgm_read_byte ucFont (c * 8 + bXOff + k))
                                  (pgm_read_byte ucFont (c2 * 8 + bXOff + k)) bYOff)
                      (Z.to_nat (8 - bXOff))).
    assert (Lvs : Z.of_nat (length vs) = 8 - bXOff).
    { unfold vs. rewrite run_of_length. lia. }
    set (m0 := log (EvLoad (next_line i)) (log (EvLoad i) m)).
    set (m2 := stores d vs m0).
    assert (L2 : length (bTemp m2) = length (bTemp m)).
    { unfold m2. now rewrite stores_length. }
    assert (P2 : bPlayfield m2 = bPlayfield m).
    { unfold m2. destruct (quiet_stores vs d m0) as [[P _] _]. exact P. }
    rewrite to_byte_small by lia.
    destruct (IH ty bYOff (wrap_tx tx + 1) (d + (8 - bXOff)) 0 m2
                ltac:(lia) ltac:(lia) ltac:(lia) ltac:(rewrite L2; lia)) as [A B].
    split.
    + intros j Hj. rewrite A by lia. unfold m2.
      rewrite peek_stores_out by lia. reflexivity.
    + intros j Hj. cbv zeta.
      destruct (Z.lt_ge_cases j (d + (8 - bXOff))) as [Hlt|Hge].
      * rewrite A by lia. unfold m2.
        rewrite peek_stores_in; [|lia|lia|simpl; lia].
        unfold vs. rewrite run_of_lookup by lia. simpl.
        rewrite Z2Nat.id by lia.
        replace ((j - d + bXOff) / 8) with 0 by (Z.div_mod_to_equations; lia).
        replace ((j - d + bXOff) mod 8) with (j - d + bXOff)
          by (Z.div_mod_to_equations; lia).
        rewrite Z.add_0_r, <- Hm. fold i. fold c. fold c2.
        f_equal; f_equal; lia.
      * rewrite B by lia. cbv zeta.
        rewrite !(playfield_at_same m m2) by exact P2.
        replace ((wrap_tx tx + 1 + (j - (d + (8 - bXOff)) + 0) / 8) mod 18)
          with ((tx + (j - d + bXOff) / 8) mod 18)
          by (rewrite Hm; Z.div_mod_to_equations; lia).
        replace ((j - (d + (8 - bXOff)) + 0) mod 8) with ((j - d + bXOff) mod 8)
          by (Z.div_mod_to_equations; lia).
        reflexivity.
Qed.

Lemma cells_shifted_row ty bYOff tx bXOff m j :
  0 <= tx < 36 -> 0 <= bXOff < 8 -> length (bTemp m) = 128%nat ->
  0 <= j < 128 - bXOff ->
  let i := (tx + (j + bXOff) / 8) mod 18 + ty * 18 in
  peek (snd (cells_shifted ucFont 16 ty bYOff tx 0 bXOff m)) j =
  shifted_byte
    (pgm_read_byte ucFont (playfield_at m i * 8 + (j + bXOff) mod 8))
    (pgm_read_byte ucFont (playfield_at m (next_line i) * 8 + (j + bXOff) mod 8))
    bYOff.
Proof.
  intros Htx Hb Hlen Hj.
  destruct (cells_shifted_bytes 16 ty bYOff tx 0 bXOff m Htx Hb ltac:(lia)
              ltac:(rewrite Hlen; lia)) as [_ B].
  cbv zeta. rewrite (B j) by lia. cbv zeta. rewrite Z.sub_0_r. reflexivity.
Qed.

(** X7.  On the shift path byte [j] of the row is the shift formula
    applied to column [(j + bXOff) mod 8] of the tile [(j + bXOff) / 8]
    cells to the right of column [tx] in row [ty] and to the same column of
    the tile one line below it. *)
Theorem shift_path_samples_tiles (ty bYOff tx bXOff : Z) (m : machine) (j : Z) :
  0 <= tx < 36 -> 0 <= bXOff < 8 -> length (bTemp m) = 128%nat ->
  0 <= j < 128 ->
  let i := (tx + (j + bXOff) / 8) mod 18 + ty * 18 in
  let top := pgm_read_byte ucFont (playfield_at m i * 8 + (j + bXOff) mod 8) in
  let bottom :=
    pgm_read_byte ucFont (playfield_at m (next_line i) * 8 + (j + bXOff) mod 8) in
  peek (snd (row_shifted ucFont ty bYOff tx bXOff m)) j =
  Z.lor (to_byte (Z.shiftr top bYOff)) (to_byte (Z.shiftl bottom (8 - bYOff))).
Proof.
  intros Htx Hb Hlen Hj i top bottom.
  change (Z.lor (to_byte (Z.shiftr top bYOff)) (to_byte (Z.shiftl bottom (8 - bYOff))))
    with (shifted_byte top bottom bYOff).
  unfold top, bottom, i.
  destruct (Z.eq_dec bXOff 0) as [E|Hne].
  - subst bXOff.
    pose proof (cells_shifted_row ty bYOff tx 0 m j Htx Hb Hlen ltac:(lia)) as C.
    pose proof (row_shifted_whole ucFont ty bYOff tx m) as W.
    destruct (cells_shifted_end ucFont 16 ty bYOff tx 0 0 m) as (tx' & m1 & E & _).
    rewrite E in C, W. rewrite W. exact C.
  - destruct (row_shifted_partial ucFont ty bYOff tx bXOff m ltac:(lia) Htx Hlen)
      as (_ & K & J).
    destruct (Z.lt_ge_cases j (128 - bXOff)) as [Hlt|Hge].
    + rewrite (J j) by lia. apply cells_shifted_row; assumption || lia.
    + replace j with (128 - bXOff + (j - (128 - bXOff))) at 1 by lia.
      rewrite K by lia.
      replace ((j + bXOff) / 8) with 16 by (Z.div_mod_to_equations; lia).
      replace ((j + bXOff) mod 8) with (j - (128 - bXOff))
        by (Z.div_mod_to_equations; lia).
      reflexivity.
Qed.

End RowBytesShifted.

(** The first page of the demo at scroll (3, 5): byte 6. *)
Lemma shift_path_samples_tiles_witness :
  peek (snd (row_shifted Demo.ucFont 0 5 0 3 (clear_row Demo.setup))) 6 =
  Z.lor (to_byte (Z.shiftr (pgm_read_byte Demo.ucFont (34 * 8 + 1)) 5))
        (to_byte (Z.shiftl (pgm_read_byte Demo.ucFont (34 * 8 + 1)) (8 - 5))).
Proof.
  apply (shift_path_samples_tiles Demo.ucFont 0 5 0 3 (clear_row Demo.setup) 6).
  - lia.
  - lia.
  - reflexivity.
  - lia.
Defined.

(** ** The rows sent to the display *)

Lemma sent_log_send pg row m : sent (log (EvSend pg row) m) = sent m ++ [(pg, row)].
Proof. unfold sent, log. simpl. now rewrite omap_app. Qed.

Lemma sent_log_load i m : sent (log (EvLoad i) m) = sent m.
Proof. unfold sent, log. simpl. rewrite omap_app. apply app_nil_r. Qed.

Lemma sent_log_partial m : sent (log EvPartial m) = sent m.
Proof. unfold sent, log. simpl. rewrite omap_app. apply app_nil_r. Qed.

Lemma sent_stores vs : forall d m, sent (stores d vs m) = sent m.
Proof.
  induction vs as [|v vs IH]; intros d m; simpl; [reflexivity|].
  rewrite IH. unfold sent, poke. simpl. rewrite omap_app. apply app_nil_r.
Qed.

Lemma sent_draw_all ucSprites ucBigSprites y0 l : forall m,
  Forall byte_fields l ->
  sent (draw_all ucSprites ucBigSprites y0 l m) = sent m.
Proof.
  induction l as [|o l IH]; intros m Hb; [reflexivity|].
  inversion Hb as [|? ? Hbo Hbl]; subst.
  rewrite draw_all_cons, IH by exact Hbl.
  destruct (visible_dec y0 o) as [Hv|Hv].
  - rewrite draw_object_stores by (first [exact Hv | destruct Hbo; lia]).
    apply sent_stores.
  - now rewrite draw_object_skip.
Qed.

Section Sent.

Variables ucFont ucSprites ucBigSprites : Z -> Z.
Variable numberOfSprites : Z.

Lemma sent_cells_copied n : forall ty tx d bXOff m,
  sent (snd (cells_copied ucFont n ty tx d bXOff m)) = sent m.
Proof.
  induction n as [|n IH]; intros ty tx d bXOff m; [reflexivity|].
  simpl cells_copied. cbv zeta. rewrite IH.
  unfold memcpy_P. rewrite memcpy_P_loop_stores, sent_stores. apply sent_log_load.
Qed.

Lemma sent_cells_shifted n : forall ty bYOff tx d bXOff m,
  sent (snd (cells_shifted ucFont n ty bYOff tx d bXOff m)) = sent m.
Proof.
  induction n as [|n IH]; intros ty bYOff tx d bXOff m; [reflexivity|].
  simpl cells_shifted. cbv zeta. rewrite IH.
  unfold DrawShiftedChar. rewrite DrawShiftedChar_loop_stores, sent_stores.
  now rewrite !sent_log_load.
Qed.

(** A row of tiles: nothing is sent, and the buffer keeps its length. *)
Lemma row_copied_sent ty tx bXOff m :
  0 <= tx < 36 ->
  sent (snd (row_copied ucFont ty tx bXOff m)) = sent m /\
  length (bTemp (snd (row_copied ucFont ty tx bXOff m))) = length (bTemp m).
Proof.
  intros Htx. unfold row_copied.
  pose proof (sent_cells_copied 16 ty tx 0 bXOff m) as S.
  destruct (cells_copied_tx ucFont 16 ty tx 0 bXOff m Htx) as (_ & _ & L).
  destruct (cells_copied ucFont 16 ty tx 0 bXOff m) as [[[tx' d'] bx'] m1].
  cbn [snd] in S, L. destruct (negb (d' =? SCREEN_WIDTH)); cbn [snd].
  - unfold memcpy_P. rewrite memcpy_P_loop_stores, sent_stores, stores_length.
    rewrite sent_log_load, sent_log_partial. auto.
  - auto.
Qed.

Lemma row_shifted_sent ty bYOff tx bXOff m :
  0 <= tx < 36 ->
  sent (snd (row_shifted ucFont ty bYOff tx bXOff m)) = sent m /\
  length (bTemp (snd (row_shifted ucFont ty bYOff tx bXOff m))) = length (bTemp m).
Proof.
  intros Htx. unfold row_shifted.
  pose proof (sent_cells_shifted 16 ty bYOff tx 0 bXOff m) as S.
  destruct (cells_shifted_tx ucFont 16 ty bYOff tx 0 bXOff m Htx) as (_ & _ & L).
  destruct (cells_shifted ucFont 16 ty bYOff tx 0 bXOff m) as [[[tx' d'] bx'] m1].
  cbn [snd] in S, L. destruct (negb (d' =? SCREEN_WIDTH)); cbn [snd].
  - unfold DrawShiftedChar.
    rewrite DrawShiftedChar_loop_stores, sent_stores, stores_length.
    rewrite !sent_log_load, sent_log_partial. auto.
  - auto.
Qed.

(** One page: one row of 128 bytes is sent, for page [pg]. *)
Lemma draw_page_sent bScrollX bYOff pg ty bXOff m :
  0 <= bScrollX < 256 -> 0 <= bXOff < 256 -> Forall byte_fields (object_list m) ->
  exists row,
    sent (snd (draw_page ucFont ucSprites ucBigSprites numberOfSprites
                         bScrollX bYOff pg ty bXOff m)) = sent m ++ [(pg, row)] /\
    length row = 128%nat.
Proof.
  intros Hx Hbx Hb. unfold draw_page.
  assert (Htx : 0 <= Z.shiftr bScrollX 3 < 36).
  { rewrite Z.shiftr_div_pow2 by lia. change (2 ^ 3) with 8.
    split; [apply Z.div_pos; lia|]. apply Z.div_lt_upper_bound; lia. }
  assert (R : exists m1,
             (if negb (bYOff =? 0)
              then row_shifted ucFont (wrap_ty ty) bYOff (Z.shiftr bScrollX 3) bXOff (clear_row m)
              else row_copied ucFont (wrap_ty ty) (Z.shiftr bScrollX 3) bXOff (clear_row m))
             = (bXOff, m1) /\ sent m1 = sent m /\ length (bTemp m1) = 128%nat /\
             object_list m1 = object_list m).
  { destruct (negb (bYOff =? 0)).
    - destruct (row_shifted_sent (wrap_ty ty) bYOff (Z.shiftr bScrollX 3) bXOff
                  (clear_row m) Htx) as [S L].
      destruct (row_shifted_end ucFont (wrap_ty ty) bYOff (Z.shiftr bScrollX 3)
                  bXOff (clear_row m) Hbx) as (m1 & E & G & _).
      rewrite E in S, L. exists m1. split; [exact E|]. split; [exact S|].
      split; [exact L|apply G].
    - destruct (row_copied_sent (wrap_ty ty) (Z.shiftr bScrollX 3) bXOff
                  (clear_row m) Htx) as [S L].
      destruct (row_copied_end ucFont (wrap_ty ty) (Z.shiftr bScrollX 3)
                  bXOff (clear_row m) Hbx) as (m1 & E & G & _).
      rewrite E in S, L. exists m1. split; [exact E|]. split; [exact S|].
      split; [exact L|apply G]. }
  destruct R as (m1 & E & S & L & O). rewrite E. cbn [snd].
  unfold send_row. rewrite sent_log_send.
  eexists. split.
  - f_equal. rewrite DrawSprites_fold. rewrite sent_draw_all; [exact S|].
    apply Forall_take. now rewrite O.
  - rewrite DrawSprites_fold, draw_all_length. exact L.
Qed.

Lemma draw_pages_sent bScrollX bYOff n : forall pg ty bXOff m,
  0 <= bScrollX < 256 -> 0 <= bXOff < 256 -> Forall byte_fields (object_list m) ->
  exists rows,
    sent (draw_pages ucFont ucSprites ucBigSprites numberOfSprites
                     n bScrollX bYOff pg ty bXOff m) = sent m ++ rows /\
    map fst rows = map (fun k : nat => pg + Z.of_nat k) (seq 0 n) /\
    Forall (fun r => length (snd r) = 128%nat) rows.
Proof.
  induction n as [|n IH]; intros pg ty bXOff m Hx Hbx Hb.
  - exists []. simpl. split; [now rewrite app_nil_r|]. split; constructor.
  - simpl draw_pages.
    destruct (draw_page_sent bScrollX bYOff pg ty bXOff m Hx Hbx Hb) as (row & S & L).
    destruct (draw_page_end ucFont ucSprites ucBigSprites numberOfSprites
                bScrollX bYOff pg ty bXOff m Hbx) as (m1 & E & G & _).
    rewrite E in *. cbn [snd] in S.
    destruct (IH (pg + 1) (to_byte (wrap_ty ty + 1)) bXOff m1 Hx Hbx) as (rows & S' & F & L').
    { destruct G as (_ & O & _). now rewrite O. }
    exists ((pg, row) :: rows). split; [|split].
    + rewrite S', S, <- app_assoc. reflexivity.
    + cbn [map fst seq]. rewrite F, Z.add_0_r. f_equal.
      rewrite <- seq_shift, map_map. apply map_ext. intros k. lia.
    + constructor; [exact L|exact L'].
Qed.

End Sent.

(** X8.  A call of [DrawPlayfield] sends eight rows to the display, one
    for each of the pages 0 to 7 in this order, each of 128 bytes. *)
Theorem frame_sends_eight_rows
        (ucFont ucSprites ucBigSprites : Z -> Z) (numberOfSprites : Z)
        (bScrollX bScrollY : Z) (m : machine) :
  0 <= bScrollX < 256 -> Forall byte_fields (object_list m) ->
  exists rows,
    sent (DrawPlayfield ucFont ucSprites ucBigSprites numberOfSprites
                        bScrollX bScrollY m) = sent m ++ rows /\
    map fst rows = [0; 1; 2; 3; 4; 5; 6; 7] /\
    Forall (fun r => length (snd r) = 128%nat) rows.
Proof.
  intros Hx Hb. unfold DrawPlayfield.
  assert (Hbx : 0 <= Z.land bScrollX 7 < 256).
  { rewrite land_7_mod. pose proof (Z.mod_pos_bound bScrollX 8). lia. }
  apply (draw_pages_sent ucFont ucSprites ucBigSprites numberOfSprites
           bScrollX (Z.land bScrollY 7) 8 0 (Z.shiftr bScrollY 3)
           (Z.land bScrollX 7) m Hx Hbx Hb).
Qed.

Lemma frame_sends_eight_rows_witness :
  exists rows,
    sent (DrawPlayfield Demo.ucFont Demo.ucSprites Demo.ucBigSprites
                        Demo.numberOfSprites 4 68 Demo.setup) =
      sent Demo.setup ++ rows /\
    map fst rows = [0; 1; 2; 3; 4; 5; 6; 7] /\
    Forall (fun r => length (snd r) = 128%nat) rows.
Proof.
  apply (frame_sends_eight_rows Demo.ucFont Demo.ucSprites Demo.ucBigSprites
           Demo.numberOfSprites 4 68 Demo.setup).
  - lia.
  - exact Demo_setup_bytes.
Defined.

